(** * xwcmd: the compact flag grammar, the schema compiler and the
    command resolver of the utility module, embedded in Rocq.

    Strings are JavaScript strings: finite sequences of UTF-16 code
    units, here [list N].  The regular expressions of the source are kept
    as regular expressions (module [RegExp]) and run by a backtracking
    matcher that follows the ECMAScript priorities (leftmost start,
    alternatives left to right, greedy quantifiers); the functions of
    the module are written with them exactly as the source chains them.
    Objects used as dictionaries ([alias], [default], [description],
    [hints]) are finite maps holding their own properties; an
    assignment under the key [__proto__] creates no own property
    ([objSet]). *)

From Stdlib Require Import NArith ZArith String Ascii List Bool Lia.
From stdpp Require Import gmap list.

Set Default Proof Using "Type".

(** ** Code units and strings *)

Abbreviation str := (list N) (only parsing).

(** [ch "x"] is the code unit of an ASCII character and [u "text"] the
    string of an ASCII literal. *)
Definition ch (a : ascii) : N := N_of_ascii a.
Arguments ch a%_char : simpl never.

Definition u (s : string) : str := map N_of_ascii (list_ascii_of_string s).
Arguments u s%_string : simpl never.

Module Js.

(** LineTerminator: LF, CR, LS, PS. *)
Definition isLineTerminator (c : N) : bool :=
  (c =? 10)%N || (c =? 13)%N || (c =? 8232)%N || (c =? 8233)%N.

(** WhiteSpace and LineTerminator, the units removed by [trim]. *)
Definition isWhiteSpace (c : N) : bool :=
  (c =? 9)%N || (c =? 11)%N || (c =? 12)%N || (c =? 32)%N || (c =? 160)%N
  || (c =? 5760)%N || ((8192 <=? c)%N && (c <=? 8202)%N)
  || (c =? 8239)%N || (c =? 8287)%N || (c =? 12288)%N || (c =? 65279)%N
  || isLineTerminator c.

Fixpoint trimStart (s : str) : str :=
  match s with
  | c :: t => if isWhiteSpace c then trimStart t else s
  | [] => []
  end.

Definition trimEnd (s : str) : str := rev (trimStart (rev s)).

Definition trim (s : str) : str := trimEnd (trimStart s).

(** [s.charAt(i)]: a string of one unit, or the empty string. *)
Definition charAt (s : str) (i : nat) : str :=
  match nth_error s i with
  | Some c => [c]
  | None => []
  end.

Definition isLeadSurrogate (c : N) : bool := (55296 <=? c)%N && (c <=? 56319)%N.
Definition isTrailSurrogate (c : N) : bool := (56320 <=? c)%N && (c <=? 57343)%N.

(** [s.codePointAt(i)]; [None] is [undefined]. *)
Definition codePointAt (s : str) (i : nat) : option N :=
  match nth_error s i with
  | None => None
  | Some c =>
      if isLeadSurrogate c then
        match nth_error s (S i) with
        | Some d =>
            if isTrailSurrogate d
            then Some ((c - 55296) * 1024 + (d - 56320) + 65536)%N
            else Some c
        | None => Some c
        end
      else Some c
  end.

(** [s.endsWith(t)]. *)
Definition endsWith (s t : str) : bool :=
  bool_decide (skipn (length s - length t) s = t).

(** [s.slice(b, e)] with the relative (negative) indices of the
    language. *)
Definition relIndex (len : nat) (i : Z) : nat :=
  if (i <? 0)%Z then Z.to_nat (Z.max (Z.of_nat len + i) 0)
  else Nat.min (Z.to_nat i) len.

Definition slice (s : str) (b e : Z) : str :=
  let from := relIndex (length s) b in
  let to := relIndex (length s) e in
  firstn (to - from) (skipn from s).

(** [l.join(sep)]. *)
Fixpoint join (sep : str) (l : list str) : str :=
  match l with
  | [] => []
  | [x] => x
  | x :: t => x ++ sep ++ join sep t
  end.

Fixpoint isPrefix (p s : str) : bool :=
  match p, s with
  | [], _ => true
  | a :: p', b :: s' => (a =? b)%N && isPrefix p' s'
  | _ :: _, [] => false
  end.

(** [s.replace(pat, repl)] with a string pattern: the first occurrence
    only.  The replacement texts of the source hold no [$] pattern. *)
Fixpoint replaceStr (pat repl s : str) : str :=
  if isPrefix pat s then repl ++ skipn (length pat) s
  else match s with
       | [] => []
       | c :: t => c :: replaceStr pat repl t
       end.

(** [l.pop()] and [l.shift()], with the array that is left. *)
Definition pop {A} (l : list A) : option A * list A :=
  (last l, removelast l).

Definition shift {A} (l : list A) : option A * list A :=
  match l with
  | [] => (None, [])
  | x :: t => (Some x, t)
  end.

(** [s.split(sep)] with a string for separator: [cur] is the segment
    being read (reversed), [skip] the units of the last separator still
    to be passed over.  With the empty separator the string is cut into
    its units. *)
Fixpoint splitStrFrom (sep : str) (skip : nat) (cur : str) (s : str)
    : list str :=
  match s with
  | [] => [rev cur]
  | x :: t =>
      match skip with
      | S n => splitStrFrom sep n cur t
      | O =>
          if isPrefix sep s
          then rev cur :: splitStrFrom sep (length sep - 1) [] t
          else splitStrFrom sep 0 (x :: cur) t
      end
  end.

Definition splitStr (sep : str) (s : str) : list str :=
  match sep with
  | [] => map (fun c => [c]) s
  | _ :: _ => splitStrFrom sep 0 [] s
  end.

End Js.

(** ** Regular expressions *)

Module RegExp.

(** The fragment the source uses: classes of one code unit (a literal,
    [.], [[^<]], [[^]]), concatenation, alternation, a greedy star or
    plus over a class, numbered capturing groups, negative lookahead
    and the two anchors (no flag [m]). *)
Inductive re : Type :=
| Empty
| Cls (p : N -> bool)
| Cat (r1 r2 : re)
| Alt (r1 r2 : re)
| Star (p : N -> bool)
| Grp (n : nat) (r : re)
| NotAhead (r : re)
| Bol
| Eol.

Definition lit (c : N) : re := Cls (N.eqb c).
Definition dot : N -> bool := fun c => negb (Js.isLineTerminator c).
Definition anyUnit : N -> bool := fun _ => true.
Definition notUnit (c : N) : N -> bool := fun x => negb (N.eqb c x).
Definition Plus (p : N -> bool) : re := Cat (Cls p) (Star p).

Definition captures := list (nat * str).

Fixpoint capture (n : nat) (c : captures) : option str :=
  match c with
  | [] => None
  | (m, s) :: c' => if Nat.eqb n m then Some s else capture n c'
  end.

(** Greedy [p*]: take as many units as possible and give back one at
    a time while the continuation fails.  The flag tells whether the
    position is still the start of the input. *)
Fixpoint star {A} (p : N -> bool) (k : bool -> str -> option A)
    (b : bool) (s : str) : option A :=
  match s with
  | c :: t =>
      if p c then
        match star p k false t with
        | Some x => Some x
        | None => k b s
        end
      else k b s
  | [] => k b s
  end.

(** The matcher, in continuation-passing style: [run r b s c k] matches
    [r] at the front of [s] and hands the rest of the input to [k];
    a failing continuation makes the matcher backtrack. *)
Fixpoint run {A} (r : re) (b : bool) (s : str) (c : captures)
    (k : bool -> str -> captures -> option A) : option A :=
  match r with
  | Empty => k b s c
  | Cls p =>
      match s with
      | x :: t => if p x then k false t c else None
      | [] => None
      end
  | Cat r1 r2 => run r1 b s c (fun b' s' c' => run r2 b' s' c' k)
  | Alt r1 r2 =>
      match run r1 b s c k with
      | Some x => Some x
      | None => run r2 b s c k
      end
  | Star p => star p (fun b' s' => k b' s' c) b s
  | Grp n r =>
      run r b s c
        (fun b' s' c' => k b' s' ((n, firstn (length s - length s') s) :: c'))
  | NotAhead r =>
      match run r b s c (fun _ _ _ => Some tt) with
      | Some _ => None
      | None => k b s c
      end
  | Bol => if b then k b s c else None
  | Eol => match s with [] => k b s c | _ :: _ => None end
  end.

(** A match at the current position: the input left after it and the
    captures. *)
Definition matchAt (r : re) (b : bool) (s : str) : option (str * captures) :=
  run r b s [] (fun _ s' c => Some (s', c)).

Record matched := Matched {
  before : str;
  whole : str;
  after : str;
  groups : captures
}.

Definition shiftRight (x : N) (m : matched) : matched :=
  Matched (x :: before m) (whole m) (after m) (groups m).

(** [RegExp.prototype.exec] without flag [g]: the leftmost position
    at which the pattern matches. *)
Fixpoint search (r : re) (b : bool) (s : str) : option matched :=
  match matchAt r b s with
  | Some (s', c) => Some (Matched [] (firstn (length s - length s') s) s' c)
  | None =>
      match s with
      | [] => None
      | x :: t => option_map (shiftRight x) (search r false t)
      end
  end.

Definition exec (r : re) (s : str) : option matched := search r true s.

(** [s.replace(r, repl)] for a pattern without flag [g] and a
    replacement text without [$]. *)
Definition replace (r : re) (repl : str) (s : str) : str :=
  match exec r s with
  | Some m => before m ++ repl ++ after m
  | None => s
  end.

(** [s.replace(r, f)] for a pattern with flag [g]: every match from
    left to right, never overlapping; [skip] counts the units of the
    last match that are still to be passed over. *)
Fixpoint replaceAllFrom (r : re) (f : str -> str) (b : bool) (skip : nat)
    (s : str) : str :=
  match skip with
  | S n =>
      match s with
      | [] => []
      | _ :: t => replaceAllFrom r f false n t
      end
  | O =>
      match matchAt r b s with
      | Some (s', _) =>
          let m := firstn (length s - length s') s in
          match s with
          | [] => f m
          | x :: t =>
              match length m with
              | O => f m ++ x :: replaceAllFrom r f false 0 t
              | S n => f m ++ replaceAllFrom r f false n t
              end
          end
      | None =>
          match s with
          | [] => []
          | x :: t => x :: replaceAllFrom r f false 0 t
          end
      end
  end.

Definition replaceAllWith (r : re) (f : str -> str) (s : str) : str :=
  replaceAllFrom r f true 0 s.

Definition replaceAll (r : re) (repl : str) (s : str) : str :=
  replaceAllWith r (fun _ => repl) s.

(** [s.split(r)]: [cur] is the segment being read (reversed), [skip]
    the units of the last separator still to be passed over.  A
    separator is tried at every position before the end; an empty
    match at the start of a segment does not split. *)
Fixpoint splitFrom (r : re) (b : bool) (skip : nat) (cur : str) (s : str)
    : list str :=
  match s with
  | [] => [rev cur]
  | x :: t =>
      match skip with
      | S n => splitFrom r false n cur t
      | O =>
          match matchAt r b s with
          | Some (s', _) =>
              match length s - length s' with
              | O =>
                  match cur with
                  | [] => splitFrom r false 0 [x] t
                  | _ :: _ => rev cur :: splitFrom r false 0 [x] t
                  end
              | S n => rev cur :: splitFrom r false n [] t
              end
          | None => splitFrom r false 0 (x :: cur) t
          end
      end
  end.

Definition split (r : re) (s : str) : list str :=
  match s with
  | [] => match matchAt r true [] with Some _ => [] | None => [[]] end
  | _ :: _ => splitFrom r true 0 [] s
  end.

(** [s.replace(r, repl)] for a pattern with flag [g] when the
    replacement is made from the match and its groups, as the texts
    with [$1] and [$2] are; [skip] as in [replaceAllFrom]. *)
Fixpoint replaceAllGroupsFrom (r : re) (f : str -> captures -> str)
    (b : bool) (skip : nat) (s : str) : str :=
  match skip with
  | S n =>
      match s with
      | [] => []
      | _ :: t => replaceAllGroupsFrom r f false n t
      end
  | O =>
      match matchAt r b s with
      | Some (s', c) =>
          let m := firstn (length s - length s') s in
          match s with
          | [] => f m c
          | x :: t =>
              match length m with
              | O => f m c ++ x :: replaceAllGroupsFrom r f false 0 t
              | S n => f m c ++ replaceAllGroupsFrom r f false n t
              end
          end
      | None =>
          match s with
          | [] => []
          | x :: t => x :: replaceAllGroupsFrom r f false 0 t
          end
      end
  end.

Definition replaceAllGroups (r : re) (f : str -> captures -> str) (s : str)
    : str :=
  replaceAllGroupsFrom r f true 0 s.

(** A run of literal units, and [r.test(s)] without flag [g]. *)
Fixpoint lits (s : str) : re :=
  match s with
  | [] => Empty
  | c :: t => Cat (lit c) (lits t)
  end.

Definition test (r : re) (s : str) : bool :=
  match exec r s with
  | Some _ => true
  | None => false
  end.

End RegExp.

Import RegExp.

(** ** The sigil grammar *)

(** [str.codePointAt(0) === 45] *)
Definition isFlag (s : str) : bool :=
  bool_decide (Js.codePointAt s 0 = Some (ch "-")).

(** [isFlag(str) && str.codePointAt(1) !== 45] *)
Definition isShortFlag (s : str) : bool :=
  isFlag s && negb (bool_decide (Js.codePointAt s 1 = Some (ch "-"))).

(** [isFlag(str) && str.codePointAt(1) === 45] *)
Definition isLongFlag (s : str) : bool :=
  isFlag s && bool_decide (Js.codePointAt s 1 = Some (ch "-")).

(** The units with a meaning of their own in the source text of a
    pattern: [^ $ \ . * + ? ( ) [ ] { } |]. *)
Definition isSyntaxCharacter (c : N) : bool :=
  existsb (N.eqb c) (u "^$\.*+?()[]{}|").

(** The pattern built by [new RegExp] in [parseByChar]: the opening
    symbol, one capturing group holding a greedy star over the class of
    every unit, the closing symbol.  The source pastes the two symbols
    into the text of the pattern as they are, so this is the pattern it
    builds when each symbol is a single unit and not a syntax character
    (as the default [<] and [>]); the properties of [parseByChar] with
    symbols of its caller are stated under that condition. *)
Definition reBetween (symbols : N * N) : re :=
  Cat (lit (fst symbols)) (Cat (Grp 1 (Star anyUnit)) (lit (snd symbols))).

(** [val.match(...)?.[1] ?? ''] *)
Definition parseByChar (val : str) (symbols : N * N) : str :=
  match exec (reBetween symbols) val with
  | Some m =>
      match capture 1 (groups m) with
      | Some g => g
      | None => []
      end
  | None => []
  end.

Definition defaultSymbols : N * N := (ch "<", ch ">").

(** [/<.*>/] *)
Definition reHint : re := Cat (lit (ch "<")) (Cat (Star dot) (lit (ch ">"))).

(** [/(\[.*\])/g] *)
Definition reBracketed : re :=
  Grp 1 (Cat (lit (ch "[")) (Cat (Star dot) (lit (ch "]")))).

(** [/\|/g] *)
Definition rePipe : re := lit (ch "|").

(** [/\|.+$/] *)
Definition reTypeSuffix : re := Cat (lit (ch "|")) (Cat (Plus dot) Eol).

(** [/^(!|\.\.\.|-)/] *)
Definition reSigil : re :=
  Cat Bol
    (Grp 1
       (Alt (lit (ch "!"))
          (Alt (Cat (lit (ch ".")) (Cat (lit (ch ".")) (lit (ch "."))))
             (lit (ch "-"))))).

Definition cleanArg (val : str) : str :=
  let trimmed :=
    replace reSigil []
      (Js.replaceStr (u "#") (u "|")
         (replace reTypeSuffix []
            (replaceAllWith reBracketed (fun a => replaceAll rePipe (u "#") a)
               (replace reHint [] val)))) in
  Js.trim trimmed.

(** [/\[(.+)\]/] *)
Definition reGroup : re :=
  Cat (lit (ch "[")) (Cat (Grp 1 (Plus dot)) (lit (ch "]"))).

(** [/,(?![^<]*>)/] *)
Definition reComma : re :=
  Cat (lit (ch ","))
    (NotAhead (Cat (Star (notUnit (ch "<"))) (lit (ch ">")))).

Definition splitFlag (val : str) : list str :=
  map (fun f => Js.trim f) (split reComma (replace reGroup [] val)).

Inductive OptionalType : Type := string_ | boolean | number | array.

#[global] Instance OptionalType_eq_dec : EqDecision OptionalType.
Proof. solve_decision. Defined.

Definition parseType (value : str) : OptionalType * str :=
  let type :=
    match Js.charAt (replace reHint [] value) 0 with
    | [c] =>
        if (c =? ch "-")%N then number
        else if (c =? ch "!")%N then boolean
        else if (c =? ch ".")%N then array
        else string_
    | _ => string_
    end in
  (type, cleanArg value).

(** ** The schema compiler *)

Section Compiler.

(** [stripAnsi] is the function of the package strip-ansi; the
    program is read for every such function.  [D] is the type of the
    default values, which the compiler only stores. *)
Variable stripAnsi : str -> str.
Variable D : Type.

(** [Arg]: [[flags, description]] or [[flags, description, defaultValue]];
    [None] is an element that is not there ([undefined]). *)
Record Arg : Type := mkArg {
  flags : str;
  description : option str;
  defaultValue : option D
}.

(** [CmdOptions].  The four buckets and the objects [alias] and
    [default] are created on first use.  The objects [alias],
    [default], [description] and [hints] are plain objects: each map
    holds the own properties of its object, and what an assignment
    does to them is [objSet]. *)
Record CmdOptions : Type := mkOptions {
  o_alias : option (gmap (list N) (list (list N)));
  o_default : option (gmap (list N) D);
  o_string : option (list (list N));
  o_boolean : option (list (list N));
  o_number : option (list (list N));
  o_array : option (list (list N));
  o_description : gmap (list N) (list N);
  o_hints : gmap (list N) (list N);
  o_required : list (list N)
}.

(** [options[type]] *)
Definition bucket (type : OptionalType) (o : CmdOptions) : option (list str) :=
  match type with
  | string_ => o_string o
  | boolean => o_boolean o
  | number => o_number o
  | array => o_array o
  end.

Definition setBucket (type : OptionalType) (l : list str) (o : CmdOptions)
    : CmdOptions :=
  match type with
  | string_ =>
      mkOptions (o_alias o) (o_default o) (Some l) (o_boolean o) (o_number o)
        (o_array o) (o_description o) (o_hints o) (o_required o)
  | boolean =>
      mkOptions (o_alias o) (o_default o) (o_string o) (Some l) (o_number o)
        (o_array o) (o_description o) (o_hints o) (o_required o)
  | number =>
      mkOptions (o_alias o) (o_default o) (o_string o) (o_boolean o) (Some l)
        (o_array o) (o_description o) (o_hints o) (o_required o)
  | array =>
      mkOptions (o_alias o) (o_default o) (o_string o) (o_boolean o)
        (o_number o) (Some l) (o_description o) (o_hints o) (o_required o)
  end.

(** [options.required.push(val)] *)
Definition pushRequired (val : str) (o : CmdOptions) : CmdOptions :=
  mkOptions (o_alias o) (o_default o) (o_string o) (o_boolean o) (o_number o)
    (o_array o) (o_description o) (o_hints o) (o_required o ++ [val]).

(** [options[type] ? options[type].push(val) : (options[type] = [val])] *)
Definition pushBucket (type : OptionalType) (val : str) (o : CmdOptions)
    : CmdOptions :=
  match bucket type o with
  | Some l => setBucket type (l ++ [val]) o
  | None => setBucket type [val] o
  end.

(** [obj[key] = value] on a plain object, as far as its own properties
    go: the key [__proto__] is the accessor of the prototype, and an
    assignment under it creates no own property. *)
Definition protoKey : str := u "__proto__".

Definition objSet {V} (key : str) (value : V) (obj : gmap (list N) V)
    : gmap (list N) V :=
  if decide (key = protoKey) then obj else <[key := value]> obj.

(** [(options.alias || (options.alias = {}))[val] = alias] *)
Definition setAlias (val : str) (alias : list str) (o : CmdOptions)
    : CmdOptions :=
  mkOptions (Some (objSet val alias (default ∅ (o_alias o)))) (o_default o)
    (o_string o) (o_boolean o) (o_number o) (o_array o) (o_description o)
    (o_hints o) (o_required o).

(** [(options.default || (options.default = {}))[val] = defaultValue] *)
Definition setDefault (val : str) (d : D) (o : CmdOptions) : CmdOptions :=
  mkOptions (o_alias o) (Some (objSet val d (default ∅ (o_default o))))
    (o_string o) (o_boolean o) (o_number o) (o_array o) (o_description o)
    (o_hints o) (o_required o).

(** [options.description[val] = ...] and [options.hints[val] = ...] *)
Definition setDescription (val d : str) (o : CmdOptions) : CmdOptions :=
  mkOptions (o_alias o) (o_default o) (o_string o) (o_boolean o) (o_number o)
    (o_array o) (objSet val d (o_description o)) (o_hints o) (o_required o).

Definition setHint (val h : str) (o : CmdOptions) : CmdOptions :=
  mkOptions (o_alias o) (o_default o) (o_string o) (o_boolean o) (o_number o)
    (o_array o) (o_description o) (objSet val h (o_hints o)) (o_required o).

(** The body of the [forEach] of [argsHandle] at index [i] of a list
    of [len] segments.  The state is the local array [alias] and the
    object [options].  The array is stored in [options.alias] by
    reference, at the last index, after which nothing is pushed. *)
Definition argsHandleStep (len : nat) (a : Arg)
    (st : list str * CmdOptions) (i : nat) (f : str)
    : list str * CmdOptions :=
  let '(alias, options) := st in
  let draftFlag := stripAnsi f in
  let flag := cleanArg draftFlag in
  if (Z.of_nat i =? Z.of_nat len - 1)%Z then
    let '(type, val) := parseType draftFlag in
    let '(val, options) :=
      if Js.endsWith val (u "!")
      then (Js.slice val 0 (-1), pushRequired (Js.slice val 0 (-1)) options)
      else (val, options) in
    let options := pushBucket type val options in
    let options := setAlias val alias options in
    let options :=
      match defaultValue a with
      | Some d => setDefault val d options
      | None => options
      end in
    let options := setDescription val (default [] (description a)) options in
    let options := setHint val (parseByChar draftFlag defaultSymbols) options in
    (alias, options)
  else (alias ++ [flag], options).

(** [l.forEach((f, i) => ...)] over a state. *)
Fixpoint forEachFrom {St} (step : St -> nat -> str -> St) (i : nat)
    (l : list str) (st : St) : St :=
  match l with
  | [] => st
  | f :: t => forEachFrom step (S i) t (step st i f)
  end.

Definition argsHandle (a : Arg) (options : CmdOptions) : CmdOptions :=
  let flagArr := splitFlag (flags a) in
  snd (forEachFrom (argsHandleStep (length flagArr) a) 0 flagArr ([], options)).

Definition emptyOptions : CmdOptions :=
  mkOptions (Some ∅) None None None None None ∅ ∅ [].

Definition parseCliArgs (args : list Arg) : CmdOptions :=
  fold_left (fun options arg => argsHandle arg options) args emptyOptions.

(** *** [formatArgs] *)

(** A value found in an entry at run time: a string, or anything
    else. *)
Inductive JsVal : Type :=
| JString (s : str)
| JOther (d : D).

Inductive XWCMDError : Type := XWCMDErr (message : str).

Record FormatArgs : Type := mkFormatArgs {
  fa_alias : str;
  fa_flag : str;
  fa_hint : str;
  fa_type : OptionalType;
  fa_rest : list JsVal
}.

Definition formatArg (arg : list JsVal) : XWCMDError + FormatArgs :=
  let '(flags, arg) := Js.shift arg in
  match flags with
  | Some (JString flags) =>
      let alias := splitFlag flags in
      let '(flag, alias) := Js.pop alias in
      match flag with
      | None => inl (XWCMDErr (u "The args missing flag!"))
      | Some flag =>
          let '(type, val) := parseType (stripAnsi flag) in
          inr (mkFormatArgs (Js.join (u ",") alias) val
                 (parseByChar flag defaultSymbols) type arg)
      end
  | _ => inl (XWCMDErr (u "The args definition error."))
  end.

(** [args.map(...)]: entries in order; the first [throw] ends the
    call. *)
Fixpoint mapThrow {A B E} (f : A -> E + B) (l : list A) : E + list B :=
  match l with
  | [] => inr []
  | x :: t =>
      match f x with
      | inl e => inl e
      | inr y =>
          match mapThrow f t with
          | inl e => inl e
          | inr ys => inr (y :: ys)
          end
      end
  end.

Definition formatArgs (args : list (list JsVal))
    : XWCMDError + list FormatArgs :=
  mapThrow formatArg args.

(** *** [checkRequired] *)

(** The objects the function is given, and a computation over them:
    it ends with a value or a thrown error, and leaves the objects in
    some state. *)
Record World : Type := mkWorld {
  w_options : CmdOptions;
  w_args : list str
}.

Definition Eff (A : Type) : Type := World -> (XWCMDError + A) * World.

Definition ret {A} (x : A) : Eff A := fun w => (inr x, w).

Definition bind {A B} (m : Eff A) (f : A -> Eff B) : Eff B :=
  fun w =>
    match m w with
    | (inl e, w') => (inl e, w')
    | (inr x, w') => f x w'
    end.

(** [options.alias && options.alias[a]], as a truth value. *)
Definition aliasOf (a : str) : Eff bool :=
  fun w =>
    match o_alias (w_options w) with
    | Some m => (inr (bool_decide (is_Some (m !! a))), w)
    | None => (inr false, w)
    end.

(** [l.some(f)] *)
Fixpoint some {A} (f : A -> Eff bool) (l : list A) : Eff bool :=
  match l with
  | [] => ret false
  | x :: t => bind (f x) (fun b => if b then ret true else some f t)
  end.

Definition checkRequired : Eff unit :=
  fun w =>
    bind
      (some (fun a => bind (aliasOf a) (fun b => if b then ret true else ret false))
         (w_args w))
      (fun _ => ret tt) w.

End Compiler.

Arguments mkArg {D}.
Arguments flags {D}.
Arguments description {D}.
Arguments defaultValue {D}.
Arguments mkOptions {D}.
Arguments o_alias {D}.
Arguments o_default {D}.
Arguments o_string {D}.
Arguments o_boolean {D}.
Arguments o_number {D}.
Arguments o_array {D}.
Arguments o_description {D}.
Arguments o_hints {D}.
Arguments o_required {D}.
Arguments bucket {D}.
Arguments emptyOptions {D}.
Arguments argsHandle stripAnsi {D}.
Arguments parseCliArgs stripAnsi {D}.
Arguments JString {D}.
Arguments JOther {D}.
Arguments formatArg stripAnsi {D}.
Arguments formatArgs stripAnsi {D}.
Arguments mkWorld {D}.
Arguments w_options {D}.
Arguments w_args {D}.
Arguments checkRequired {D}.

(** ** The command resolver *)

Record Meta : Type := mkMeta {
  name : str;
  alias : list str
}.

#[warnings="-register-all"]
Inductive Command : Type := mkCommand (meta : Meta) (subs : list Command).

Section Resolver.

Variable stripAnsi : str -> str.

(** [meta.alias!.concat(meta.name).some(n => stripAnsi(n) === currentCmd)] *)
Definition matchSubCmd (meta : Meta) (currentCmd : str) : bool :=
  existsb (fun n => bool_decide (stripAnsi n = currentCmd))
    (alias meta ++ [name meta]).

(** One round of the callback of [subCmds.some] in [traverseToCall]:
    the array [argv] is shared by the whole search, so the callback
    takes it and gives it back with what was pushed. *)
Fixpoint visit (nm : str) (c : Command) (argv : list str)
    : bool * list str :=
  match c with
  | mkCommand meta subs =>
      let argv := argv ++ [name meta] in
      if matchSubCmd meta nm then (true, argv)
      else
        (fix someVisit (l : list Command) (argv : list str)
           : bool * list str :=
           match l with
           | [] => (false, argv)
           | c' :: l' =>
               let '(matched, argv) := visit nm c' argv in
               if matched then (true, argv) else someVisit l' argv
           end) subs argv
  end.

(** [subCmds.some(...)] with the shared [argv]. *)
Fixpoint someVisit (nm : str) (l : list Command) (argv : list str)
    : bool * list str :=
  match l with
  | [] => (false, argv)
  | c :: l' =>
      let '(matched, argv) := visit nm c argv in
      if matched then (true, argv) else someVisit nm l' argv
  end.

(** [traverseToCall(name, subCmds, argv)]; [None] is [false]. *)
Definition traverseToCallFrom (nm : str) (subCmds : list Command)
    (argv : list str) : option (list str) :=
  let '(matched, argv) := someVisit nm subCmds argv in
  if matched then Some argv else None.

(** The call with the default [argv = []]. *)
Definition traverseToCall (nm : str) (subCmds : list Command)
    : option (list str) :=
  traverseToCallFrom nm subCmds [].

End Resolver.

(** ** The rest of the module *)

(** [/^-+/] *)
Definition reHyphens : re := Cat Bol (Plus (N.eqb (ch "-"))).

(** [str.replace(/^-+/, '')] *)
Definition stripFlag (s : str) : str := replace reHyphens [] s.

(** [/^(https?|ftp):\/\//] *)
Definition reLink : re :=
  Cat Bol
    (Cat (Grp 1 (Alt (Cat (lits (u "http")) (Alt (lit (ch "s")) Empty))
                   (lits (u "ftp"))))
       (lits (u "://"))).

Definition isLink (text : str) : bool := test reLink text.

(** The pattern of [parseDefaultParams]: a [[], one capturing group
    holding a greedy star over the class of every unit, a []]. *)
Definition reParams : re := reBetween (ch "[", ch "]").

(** [/!$/] *)
Definition reBang : re := Cat (lit (ch "!")) Eol.

Definition isLowerLetter (c : N) : bool := (97 <=? c)%N && (c <=? 122)%N.
Definition isUpperLetter (c : N) : bool := (65 <=? c)%N && (c <=? 90)%N.

(** [/([a-z])([A-Z])/g] *)
Definition reLowerUpper : re :=
  Cat (Grp 1 (Cls isLowerLetter)) (Grp 2 (Cls isUpperLetter)).

(** The replacement text ['$1-$2']. *)
Definition hyphenBetween (_ : str) (c : captures) : str :=
  default [] (capture 1 c) ++ u "-" ++ default [] (capture 2 c).

Section Case.

(** [toLowerCase] is the method of the language, with its tables for
    every script; the function is read for every such method. *)
Variable toLowerCase : str -> str.

(** [str.replace(/([a-z])([A-Z])/g, '$1-$2').toLowerCase()] *)
Definition toKebabCase (s : str) : str :=
  toLowerCase (replaceAllGroups reLowerUpper hyphenBetween s).

End Case.

Section DefaultParams.

Variable stripAnsi : str -> str.
Variable D : Type.

(** The body of the [forEach] of [parseDefaultParams]; the state is the
    object [result]: its options and its list [_]. *)
Definition defaultParamStep (st : CmdOptions D * list str) (param : str)
    : CmdOptions D * list str :=
  let '(result, positional) := st in
  let p := Js.trim param in
  (argsHandle stripAnsi (mkArg p (Some []) None) result,
   positional ++ [cleanArg (replace reBang [] p)]).

(** [parseDefaultParams(defaultFlag)]; [None] is [undefined].  The
    object [result] starts with [description], [alias], [hints],
    [required] and [_] empty. *)
Definition parseDefaultParams (defaultFlag : str)
    : option (CmdOptions D * list str) :=
  let params :=
    match exec reParams defaultFlag with
    | Some m =>
        match capture 1 (groups m) with
        | Some g => g
        | None => []
        end
    | None => []
    end in
  if (0 <? length params)%nat
  then Some (fold_left defaultParamStep (Js.splitStr (u ",") params)
               (emptyOptions, []))
  else None.

End DefaultParams.

Arguments parseDefaultParams stripAnsi D defaultFlag : clear implicits.


(** ** Definitions used in the statements *)

(** What follows the last closing symbol [b] of the line that starts
    [s], if that line has one. *)
Fixpoint lastClose (b : N) (s : str) : option str :=
  match s with
  | [] => None
  | x :: t =>
      if dot x then
        match lastClose b t with
        | Some r => Some r
        | None => if (x =? b)%N then Some t else None
        end
      else None
  end.

(** A string without its hint, said directly: at the first [<] with a
    [>] after it on the same line, the text from that [<] to the last
    [>] of the line goes; a string without such a [<] is kept whole. *)
Fixpoint removeHint (s : str) : str :=
  match s with
  | [] => []
  | x :: t =>
      if (x =? ch "<")%N then
        match lastClose (ch ">") t with
        | Some r => r
        | None => x :: removeHint t
        end
      else x :: removeHint t
  end.

(** A flags string without its group, said directly: at the first [[]
    that is followed, on one line, by at least one unit and then a
    []], the text from that [[] to the last []] of the line goes; a
    string without such a [[] is kept whole. *)
Fixpoint removeGroup (s : str) : str :=
  match s with
  | [] => []
  | x :: t =>
      if (x =? ch "[")%N then
        match t with
        | y :: t' =>
            if dot y then
              match lastClose (ch "]") t' with
              | Some r => r
              | None => x :: removeGroup t
              end
            else x :: removeGroup t
        | [] => x :: removeGroup t
        end
      else x :: removeGroup t
  end.

(** The removal of the hints as the specification words it: every
    hint goes, each from its [<] to the first [>] after it. *)
Fixpoint removeEachHint (inside : bool) (s : str) : str :=
  match s with
  | [] => []
  | x :: t =>
      if inside then
        if (x =? ch ">")%N then removeEachHint false t
        else removeEachHint true t
      else if (x =? ch "<")%N && existsb (N.eqb (ch ">")) t
      then removeEachHint true t
      else x :: removeEachHint false t
  end.

(** What [/,(?![^<]*>)/] looks ahead for, read off the text after a
    comma: a [>] that comes before every [<]. *)
Fixpoint closesHint (s : str) : bool :=
  match s with
  | [] => false
  | x :: t =>
      if (x =? ch ">")%N then true
      else if (x =? ch "<")%N then false
      else closesHint t
  end.

(** Cutting a string at the commas that are not followed by such a
    [>]; [cur] is the segment being read, reversed. *)
Fixpoint cutAtCommas (cur : str) (s : str) : list str :=
  match s with
  | [] => [rev cur]
  | x :: t =>
      if (x =? ch ",")%N && negb (closesHint t)
      then rev cur :: cutAtCommas [] t
      else cutAtCommas (x :: cur) t
  end.

(** The split as the specification words it: a scan from the left that
    knows whether it is inside an angle-bracket hint, and cuts at the
    commas that are outside. *)
Fixpoint splitOutsideHints (inside : bool) (cur : str) (s : str) : list str :=
  match s with
  | [] => [rev cur]
  | x :: t =>
      if (x =? ch ",")%N then
        if inside then splitOutsideHints inside (x :: cur) t
        else rev cur :: splitOutsideHints inside [] t
      else if (x =? ch "<")%N then splitOutsideHints true (x :: cur) t
      else if (x =? ch ">")%N then splitOutsideHints false (x :: cur) t
      else splitOutsideHints inside (x :: cur) t
  end.

Definition specSplitFlag (val : str) : list str :=
  map (fun f => Js.trim f) (splitOutsideHints false [] val).

(** Angle brackets that open and close in turn: no [<] inside a hint,
    no [>] outside, and nothing left open at the end. *)
Fixpoint hintsClosed (inside : bool) (s : str) : bool :=
  match s with
  | [] => negb inside
  | x :: t =>
      if (x =? ch "<")%N then negb inside && hintsClosed true t
      else if (x =? ch ">")%N then inside && hintsClosed false t
      else hintsClosed inside t
  end.

(** The extractor as the specification words it: the text between the
    first opening symbol and the first closing symbol after it. *)
Fixpoint upTo (b : N) (s : str) : option str :=
  match s with
  | [] => None
  | x :: t =>
      if (x =? b)%N then Some []
      else option_map (cons x) (upTo b t)
  end.

Fixpoint firstPair (a b : N) (s : str) : str :=
  match s with
  | [] => []
  | x :: t =>
      if (x =? a)%N then default [] (upTo b t)
      else firstPair a b t
  end.

Section Descriptor.

Variable stripAnsi : str -> str.

(** The last segment of a flags string, without its colours. *)
Definition canonicalSegment (flags : str) : str :=
  stripAnsi (default [] (last (splitFlag flags))).

Definition canonicalType (flags : str) : OptionalType :=
  fst (parseType (canonicalSegment flags)).

(** The name under which [argsHandle] registers an entry: the cleaned
    last segment without the [!] that marks it as required. *)
Definition canonicalName (flags : str) : str :=
  let val := snd (parseType (canonicalSegment flags)) in
  if Js.endsWith val (u "!") then Js.slice val 0 (-1) else val.

(** The cleaned segments before the last one. *)
Definition aliasNames (flags : str) : list str :=
  map (fun f => cleanArg (stripAnsi f)) (removelast (splitFlag flags)).

End Descriptor.

(** A match found further to the right, behind [pre]. *)
Definition shiftBy (pre : str) (m : matched) : matched :=
  Matched (pre ++ before m) (whole m) (after m) (groups m).

Section Register.
Variable stripAnsi : str -> str.
Variable D : Type.

(** What the last round of the loop of [argsHandle] does with the
    canonical segment [draftFlag], once the aliases are collected. *)
Definition registerCanonical (a : Arg D) (alias : list str) (draftFlag : str)
    (options : CmdOptions D) : CmdOptions D :=
  let type := fst (parseType draftFlag) in
  let val0 := snd (parseType draftFlag) in
  let val := if Js.endsWith val0 (u "!") then Js.slice val0 0 (-1) else val0 in
  let options :=
    if Js.endsWith val0 (u "!") then pushRequired D val options else options in
  let options := pushBucket D type val options in
  let options := setAlias D val alias options in
  let options :=
    match defaultValue a with
    | Some d => setDefault D val d options
    | None => options
    end in
  let options := setDescription D val (default [] (description a)) options in
  setHint D val (parseByChar draftFlag defaultSymbols) options.
End Register.
Arguments registerCanonical {D}.

(** The flags field of an entry given to [formatArgs], when it is a
    string. *)
Definition flagsOf {D} (entry : list (JsVal D)) : option str :=
  match entry with
  | JString s :: _ => Some s
  | _ => None
  end.

(** The nodes up to the first one a token matches, that one included. *)
Fixpoint upToMatch (stripAnsi : str -> str) (nm : str) (l : list Meta)
    : list Meta :=
  match l with
  | [] => []
  | m :: t =>
      if matchSubCmd stripAnsi m nm then [m] else m :: upToMatch stripAnsi nm t
  end.

Definition anyMatch (stripAnsi : str -> str) (nm : str) (l : list Meta) : bool :=
  existsb (fun m => matchSubCmd stripAnsi m nm) l.

(** The resolution path as the specification words it: the names from
    a root of the forest down to the first node, in the order of the
    declarations, that the token matches. *)
Fixpoint pathIn (stripAnsi : str -> str) (nm : str) (c : Command)
    : option (list str) :=
  match c with
  | mkCommand meta subs =>
      if matchSubCmd stripAnsi meta nm then Some [name meta]
      else
        option_map (cons (name meta))
          ((fix firstPath (l : list Command) : option (list str) :=
              match l with
              | [] => None
              | c' :: l' =>
                  match pathIn stripAnsi nm c' with
                  | Some p => Some p
                  | None => firstPath l'
                  end
              end) subs)
  end.

Fixpoint resolutionPath (stripAnsi : str -> str) (nm : str)
    (l : list Command) : option (list str) :=
  match l with
  | [] => None
  | c :: l' =>
      match pathIn stripAnsi nm c with
      | Some p => Some p
      | None => resolutionPath stripAnsi nm l'
      end
  end.

(** Induction over a command and its sub-commands. *)
Fixpoint Command_forall_ind (P : Command -> Prop)
    (H : forall meta subs, Forall P subs -> P (mkCommand meta subs))
    (c : Command) : P c :=
  match c with
  | mkCommand meta subs =>
      H meta subs
        ((fix go (l : list Command) : Forall P l :=
            match l with
            | [] => List.Forall_nil P
            | c' :: l' =>
                @List.Forall_cons _ P c' l' (Command_forall_ind P H c') (go l')
            end) subs)
  end.

(** The names of the four buckets of a schema. *)
Definition bucketNames {D} (type : OptionalType) (o : CmdOptions D) : list str :=
  default [] (bucket type o).

Definition allNames {D} (o : CmdOptions D) : list str :=
  bucketNames string_ o ++ bucketNames boolean o ++ bucketNames number o
  ++ bucketNames array o.

(** The nodes of a forest, and the path to a node: the names from a
    root of the forest down to it. *)
Fixpoint nodesOf (c : Command) : list Meta :=
  match c with
  | mkCommand meta subs =>
      meta :: (fix nodesOfList (l : list Command) : list Meta :=
                 match l with
                 | [] => []
                 | c' :: l' => nodesOf c' ++ nodesOfList l'
                 end) subs
  end.

Fixpoint nodesOfList (l : list Command) : list Meta :=
  match l with
  | [] => []
  | c :: l' => nodesOf c ++ nodesOfList l'
  end.

(** Plain text: on a string without colour the stripper changes
    nothing; the witnesses are plain. *)
Definition plainText : str -> str := fun s => s.

Definition install : Command :=
  mkCommand (mkMeta (u "install") [u "i"; u "in"]) [].

Definition add : Command := mkCommand (mkMeta (u "add") [u "a"]) [].

(** What is left of a string behind its longest front of units of a
    class. *)
Fixpoint skipUnits (p : N -> bool) (s : str) : str :=
  match s with
  | [] => []
  | x :: t => if p x then skipUnits p t else s
  end.

(** What [/^(!|\.\.\.|-)/] takes off the front of a string. *)
Definition stripSigil (s : str) : str :=
  match s with
  | x :: t =>
      if (x =? ch "!")%N then t
      else if (x =? ch ".")%N then
        match t with
        | y :: z :: t' =>
            if (y =? ch ".")%N && (z =? ch ".")%N then t' else s
        | _ => s
        end
      else if (x =? ch "-")%N then t
      else s
  | [] => []
  end.

(** A definition without hint, group, type or escape mark. *)
Definition plainName (s : str) : Prop :=
  (ch "<" ∉ s) /\ (ch "[" ∉ s) /\ (ch "|" ∉ s) /\ (ch "#" ∉ s).

(** An entry whose cleaned canonical segment ends with the mark [!]. *)
Definition markedRequired (stripAnsi : str -> str) (flags : str) : bool :=
  Js.endsWith (snd (parseType (canonicalSegment stripAnsi flags))) (u "!").

(** What a formatted entry holds of its entry. *)
Definition formattedFrom (stripAnsi : str -> str) {D}
    (entry : list (JsVal D)) (fa : FormatArgs D) : Prop :=
  exists s rest,
    entry = JString s :: rest
    /\ fa_rest D fa = rest
    /\ fa_alias D fa = Js.join (u ",") (removelast (splitFlag s))
    /\ fa_type D fa = canonicalType stripAnsi s
    /\ canonicalName stripAnsi s
       = if Js.endsWith (fa_flag D fa) (u "!")
         then Js.slice (fa_flag D fa) 0 (-1)
         else fa_flag D fa.

(** What every step of [parseDefaultParams] keeps: no default value,
    no alias, no description, and one name in [_] for each name in the
    buckets. *)
Definition positionalOnly {D} (st : CmdOptions D * list str) : Prop :=
  o_default (fst st) = None
  /\ (forall n l, default ∅ (o_alias (fst st)) !! n = Some l -> l = [])
  /\ (forall n d, o_description (fst st) !! n = Some d -> d = [])
  /\ length (snd st) = length (allNames (fst st)).

(** A hyphen between every lowercase letter of [a-z] and the
    uppercase letter of [A-Z] right behind it. *)
Fixpoint insertHyphens (s : str) : str :=
  match s with
  | [] => []
  | x :: t =>
      match t with
      | y :: _ =>
          if isLowerLetter x && isUpperLetter y
          then x :: ch "-" :: insertHyphens t
          else x :: insertHyphens t
      | [] => [x]
      end
  end.

(** The number of places where a lowercase letter is followed by an
    uppercase one. *)
Fixpoint humps (s : str) : nat :=
  match s with
  | [] => 0
  | x :: t =>
      match t with
      | y :: _ =>
          if isLowerLetter x && isUpperLetter y then S (humps t) else humps t
      | [] => 0
      end
  end.

(** * Properties *)

(** ** Flags *)

Lemma codePointAt_hyphen (s : str) (i : nat) :
  Js.codePointAt s i = Some (ch "-") <-> nth_error s i = Some (ch "-").
Proof.
  unfold Js.codePointAt. change (ch "-") with 45%N.
  destruct (nth_error s i) as [c|]; [|tauto].
  destruct (Js.isLeadSurrogate c) eqn:Hl; [|tauto].
  assert (55296 <= c)%N as Hc.
  { unfold Js.isLeadSurrogate in Hl. apply andb_prop in Hl as [Hl _].
    apply N.leb_le in Hl. exact Hl. }
  destruct (nth_error s (S i)) as [d|];
    [destruct (Js.isTrailSurrogate d)|];
    split; intros [= H]; exfalso; lia.
Qed.

Lemma isFlag_cons (c : N) (t : str) : isFlag (c :: t) = bool_decide (c = ch "-").
Proof.
  unfold isFlag. apply bool_decide_ext.
  rewrite codePointAt_hyphen. simpl. split; congruence.
Qed.

(** C10. On every string that starts with a hyphen exactly one of
    [isShortFlag] and [isLongFlag] answers [true]; the string made of
    one hyphen is a short flag and the string made of two hyphens is a
    long flag. *)
Theorem short_long_flag_partition :
  (forall t : str,
      isShortFlag (ch "-" :: t) = negb (isLongFlag (ch "-" :: t)))
  /\ isShortFlag (u "-") = true
  /\ isLongFlag (u "--") = true.
Proof.
  split; [|split; reflexivity].
  intros t. unfold isShortFlag, isLongFlag.
  rewrite isFlag_cons, bool_decide_true by reflexivity.
  reflexivity.
Qed.

(** ** The name of a definition *)

(** The name [parseType] gives is the one [cleanArg] gives. *)
Lemma parseType_name (value : str) : snd (parseType value) = cleanArg value.
Proof. reflexivity. Qed.

(** ** The name cleaner *)

(** C6. On [[a|b|c]] the two bars of the group are escaped as [#]
    and only the first is put back: the name keeps a [#] that the
    definition never had. *)
Theorem cleanArg_restores_first_bar_only :
  cleanArg (u "[a|b|c]") = u "[a|b#c]".
Proof. vm_compute. reflexivity. Qed.

(** A [#] of the definition itself is turned into a bar. *)
Lemma cleanArg_rewrites_hash : cleanArg (u "a#b") = u "a|b".
Proof. vm_compute. reflexivity. Qed.

(** With one bar in the group, the bar is escaped, kept apart from the
    type separator and put back; the hint goes before the type. *)
Lemma cleanArg_single_bar :
  cleanArg (u "!pkg [x|y] <a|b> | array") = u "pkg [x|y]".
Proof. vm_compute. reflexivity. Qed.

(** ** The required fields *)

Lemma some_aliasOf_pure {D} (args : list str) (w : World D) :
  exists b,
    some D
      (fun a => bind D (aliasOf D a) (fun b => if b then ret D true else ret D false))
      args w = (inr b, w).
Proof.
  induction args as [|a args IH]; simpl.
  - eexists. reflexivity.
  - unfold bind at 1. unfold bind at 1. unfold aliasOf.
    destruct (o_alias (w_options w)) as [m|]; simpl.
    + destruct (bool_decide (is_Some (m !! a))); simpl.
      * eexists. reflexivity.
      * exact IH.
    + exact IH.
Qed.

Lemma checkRequired_pure {D} (w : World D) : checkRequired w = (inr tt, w).
Proof.
  unfold checkRequired, bind at 1.
  destruct (some_aliasOf_pure (w_args w) w) as [b ->].
  reflexivity.
Qed.

(** C8. [checkRequired] returns [undefined] for every schema and every
    sequence of tokens, throws nothing and leaves both as they were,
    whatever the list [required] holds. *)
Theorem checkRequired_never_raises {D} (options : CmdOptions D) (args : list str) :
  checkRequired (mkWorld options args) = (inr tt, mkWorld options args).
Proof. apply checkRequired_pure. Qed.

(** A required name that no token gives is no exception. *)
Lemma checkRequired_missing_required :
  checkRequired
    (mkWorld (parseCliArgs (fun s => s) [mkArg (u "p,pkg!") None (None : option bool)])
       [u "--verbose"])
  = (inr tt,
     mkWorld (parseCliArgs (fun s => s) [mkArg (u "p,pkg!") None None])
       [u "--verbose"])
  /\ o_required
       (parseCliArgs (fun s => s) [mkArg (u "p,pkg!") None (None : option bool)])
     = [u "pkg"].
Proof. split; [apply checkRequired_pure | vm_compute; reflexivity]. Qed.

(** ** The matcher *)

#[local] Arguments N.eqb : simpl never.
#[local] Arguments ch : simpl never.

(** A star whose continuation fails at every position fails. *)
Lemma star_none {A} (p : N -> bool) (k : bool -> str -> option A) (s : str) :
  forall b,
    k b s = None ->
    (forall l t, l <> [] -> s = l ++ t -> k false t = None) ->
    star p k b s = None.
Proof.
  induction s as [|x s IH]; intros b Hk Hsuf; simpl.
  - exact Hk.
  - destruct (p x); [|exact Hk].
    rewrite IH; [exact Hk| |].
    + apply (Hsuf [x] s); [discriminate|reflexivity].
    + intros l t Hl ->. apply (Hsuf (x :: l) t); [discriminate|reflexivity].
Qed.

(** A star is greedy: when it can run over [mid] and still succeed
    behind it, the shorter runs are not tried. *)
Lemma star_app {A} (p : N -> bool) (k : bool -> str -> option A) (mid : str) :
  forall b rest v,
    Forall (fun x => p x = true) mid ->
    star p k (match mid with [] => b | _ :: _ => false end) rest = Some v ->
    star p k b (mid ++ rest) = Some v.
Proof.
  induction mid as [|x mid IH]; intros b rest v Hp Hk; simpl.
  - exact Hk.
  - inversion Hp as [|? ? Hx Hmid]; subst. rewrite Hx.
    rewrite (IH false rest v Hmid); [reflexivity|].
    destruct mid; exact Hk.
Qed.

(** The search passes over the positions at which the pattern fails. *)
Lemma search_skip (r : re) (pre : str) :
  forall b s,
    (forall l x t b', pre = l ++ x :: t -> matchAt r b' (x :: t ++ s) = None) ->
    search r b (pre ++ s)
    = option_map (shiftBy pre)
        (search r (match pre with [] => b | _ :: _ => false end) s).
Proof.
  induction pre as [|x pre IH]; intros b s H; simpl.
  - destruct (search r b s) as [[]|]; reflexivity.
  - rewrite (H [] x pre b eq_refl).
    rewrite IH.
    + destruct pre; destruct (search r _ s) as [[]|]; reflexivity.
    + intros l y t b' ->. apply (H (x :: l) y t b'). reflexivity.
Qed.

Lemma search_none (r : re) (s : str) :
  forall b,
    (forall l t b', s = l ++ t -> matchAt r b' t = None) ->
    search r b s = None.
Proof.
  induction s as [|x s IH]; intros b H; simpl.
  - rewrite (H [] [] b eq_refl). reflexivity.
  - rewrite (H [] (x :: s) b eq_refl).
    rewrite IH; [reflexivity|].
    intros l t b' ->. apply (H (x :: l) t b'). reflexivity.
Qed.

(** A pattern that begins with a literal fails where the literal is
    not. *)
Lemma matchAt_lit_nil (a : N) (r : re) (b : bool) :
  matchAt (Cat (lit a) r) b [] = None.
Proof. reflexivity. Qed.

Lemma matchAt_lit_other (a : N) (r : re) (b : bool) (x : N) (t : str) :
  x <> a -> matchAt (Cat (lit a) r) b (x :: t) = None.
Proof.
  intros Hx. unfold matchAt. simpl.
  destruct (N.eqb_spec a x) as [->|_]; [contradiction|reflexivity].
Qed.

Lemma search_lit_skip (a : N) (r : re) (pre s : str) (b : bool) :
  a ∉ pre ->
  search (Cat (lit a) r) b (pre ++ s)
  = option_map (shiftBy pre)
      (search (Cat (lit a) r) (match pre with [] => b | _ :: _ => false end) s).
Proof.
  intros Ha. apply search_skip. intros l x t b' ->.
  apply matchAt_lit_other. intros ->. apply Ha.
  apply elem_of_app. right. left.
Qed.

Lemma replace_no_literal (a : N) (r : re) (repl s : str) :
  a ∉ s -> replace (Cat (lit a) r) repl s = s.
Proof.
  intros Ha. unfold replace, exec. rewrite search_none; [reflexivity|].
  intros l [|x t] b' ->; [reflexivity|].
  apply matchAt_lit_other. intros ->. apply Ha.
  apply elem_of_app. right. left.
Qed.

(** ** The hint *)

(** [/<.*>/] takes out the text from the first [<] to the last [>]
    after it, when no line terminator stands between them. *)
Lemma replace_reHint_removes (pre mid post : str) :
  ch "<" ∉ pre -> ch ">" ∉ post -> Forall (fun x => dot x = true) mid ->
  replace reHint [] (pre ++ ch "<" :: mid ++ ch ">" :: post) = pre ++ post.
Proof.
  intros Hlt Hgt Hmid. unfold replace, exec, reHint.
  rewrite search_lit_skip by exact Hlt.
  cbn [search]. unfold matchAt at 1. cbn [run lit].
  rewrite N.eqb_refl.
  match goal with
  | |- context [star dot ?K false _] =>
      assert (star dot K false (mid ++ ch ">" :: post) = Some (post, [])) as E
  end.
  { apply star_app; [exact Hmid|].
    assert (forall l t, post = l ++ t ->
              forall f, run (Cls (N.eqb (ch ">"))) f t []
                          (fun _ s' c => Some (s', c)) = None) as Hk.
    { intros l [|x t] -> f; [reflexivity|]. cbn [run].
      destruct (N.eqb_spec (ch ">") x) as [<-|_]; [|reflexivity].
      exfalso. apply Hgt. apply elem_of_app. right. left. }
    cbn [star]. change (dot (ch ">")) with true. cbv iota.
    rewrite star_none.
    - cbn [run]. rewrite N.eqb_refl. reflexivity.
    - exact (Hk [] post eq_refl false).
    - intros l t _ E. exact (Hk l t E false). }
  rewrite E. cbn [option_map shiftBy before after app].
  rewrite app_nil_r. reflexivity.
Qed.

Lemma replace_reHint_plain (val : str) :
  ch "<" ∉ val -> replace reHint [] val = val.
Proof. apply replace_no_literal. Qed.

(** A greedy star over the units of a line, followed by a closing
    symbol, stops behind the last closing symbol of the line. *)
Lemma star_lastClose (b : N) (k : bool -> str -> option (str * captures)) :
  Js.isLineTerminator b = false ->
  (forall b' s',
      option_map fst (k b' s')
      = match s' with
        | y :: r => if (y =? b)%N then Some r else None
        | [] => None
        end) ->
  forall s b0, option_map fst (star dot k b0 s) = lastClose b s.
Proof.
  intros Hb Hk. induction s as [|x s IH]; intros b0.
  - simpl. rewrite Hk. reflexivity.
  - cbn [star lastClose]. destruct (dot x) eqn:Hx.
    + specialize (IH false). destruct (star dot k false s) as [v|].
      * simpl in IH. rewrite <- IH. reflexivity.
      * simpl in IH. rewrite <- IH. rewrite Hk. reflexivity.
    + rewrite Hk. destruct (N.eqb_spec x b) as [->|_]; [|reflexivity].
      unfold dot in Hx. rewrite Hb in Hx. discriminate Hx.
Qed.

(** Taking out the leftmost match, position by position. *)
Lemma search_removed (r : re) (f : str -> str) :
  (forall b, option_map fst (matchAt r b []) = None) ->
  (forall b x t,
      match option_map fst (matchAt r b (x :: t)) with
      | Some rest => f (x :: t) = rest
      | None => f (x :: t) = x :: f t
      end) ->
  f [] = [] ->
  forall s b,
    match search r b s with
    | Some m => before m ++ after m
    | None => s
    end = f s.
Proof.
  intros Hnil Hcons Hf. induction s as [|x s IH]; intros b.
  - simpl. specialize (Hnil b).
    destruct (matchAt r b []) as [[]|]; [discriminate|].
    rewrite Hf. reflexivity.
  - cbn [search]. specialize (Hcons b x s).
    destruct (matchAt r b (x :: s)) as [[s' c]|]; cbn [option_map fst] in Hcons.
    + simpl. rewrite Hcons. reflexivity.
    + rewrite Hcons. specialize (IH false).
      destruct (search r false s) as [m|]; simpl.
      * rewrite <- IH. reflexivity.
      * rewrite <- IH. reflexivity.
Qed.

(** What [/<.*>/] takes out of a string, on every string. *)
Lemma replace_reHint_removeHint (s : str) :
  replace reHint [] s = removeHint s.
Proof.
  unfold replace, exec. cbn [app].
  apply (search_removed reHint removeHint); [reflexivity| |reflexivity].
  intros b x t. unfold matchAt, reHint. cbn [run lit].
  rewrite (N.eqb_sym (ch "<") x). cbn [removeHint].
  destruct (x =? ch "<")%N; [|reflexivity].
  rewrite (star_lastClose (ch ">"));
    [destruct (lastClose (ch ">") t); reflexivity|reflexivity|].
  intros b' [|y r]; [reflexivity|]. cbn [run].
  rewrite (N.eqb_sym (ch ">") y). destruct (y =? ch ">")%N; reflexivity.
Qed.

(** ** The sigil of a definition *)

(** C3, as the code has it.  The type [parseType] gives is read off
    the first unit of what is left of the definition once one stretch
    of it is gone: the text from the first [<] that has a [>] after it
    on the same line to the last [>] of that line.  [-] gives number,
    [!] boolean, [.] array, and everything else, the empty string too,
    gives string. *)
Theorem parseType_sigil (value : str) :
  let first := Js.charAt (removeHint value) 0 in
  (first = u "-" -> fst (parseType value) = number)
  /\ (first = u "!" -> fst (parseType value) = boolean)
  /\ (first = u "." -> fst (parseType value) = array)
  /\ (first <> u "-" -> first <> u "!" -> first <> u "." ->
      fst (parseType value) = string_).
Proof.
  rewrite <- replace_reHint_removeHint. unfold parseType. cbn [fst]. cbv zeta.
  destruct (Js.charAt (replace reHint [] value) 0) as [|c [|d l]] eqn:E.
  - repeat split; intros; try discriminate; reflexivity.
  - repeat split.
    + intros [= ->]. reflexivity.
    + intros [= ->]. reflexivity.
    + intros [= ->]. reflexivity.
    + intros H1 H2 H3.
      destruct (N.eqb_spec c (ch "-")) as [->|_]; [contradiction H1; reflexivity|].
      destruct (N.eqb_spec c (ch "!")) as [->|_]; [contradiction H2; reflexivity|].
      destruct (N.eqb_spec c (ch ".")) as [->|_]; [contradiction H3; reflexivity|].
      reflexivity.
  - repeat split; intros; try discriminate; reflexivity.
Qed.

Lemma parseType_sigil_witness :
  fst (parseType (u "<n>-size")) = number
  /\ fst (parseType (u "!recursive")) = boolean
  /\ fst (parseType (u "...files")) = array
  /\ fst (parseType (u "")) = string_.
Proof.
  split; [|split; [|split]].
  - apply (proj1 (parseType_sigil (u "<n>-size"))). reflexivity.
  - apply (proj1 (proj2 (parseType_sigil (u "!recursive")))). reflexivity.
  - apply (proj1 (proj2 (proj2 (parseType_sigil (u "...files"))))). reflexivity.
  - apply (proj2 (proj2 (proj2 (parseType_sigil (u ""))))); discriminate.
Defined.

(** C3, as the specification words it, fails: with two hints the text
    between them goes with them, so the sigil behind the first hint is
    not seen; and a hint that holds a line feed is not taken out at
    all. *)
Lemma parseType_not_each_hint :
  (removeEachHint false (u "<a>-n<b>!") = u "-n!"
   /\ removeHint (u "<a>-n<b>!") = u "!"
   /\ fst (parseType (u "<a>-n<b>!")) = boolean)
  /\ (removeEachHint false (ch "<" :: 10%N :: u ">-n") = u "-n"
      /\ removeHint (ch "<" :: 10%N :: u ">-n") = ch "<" :: 10%N :: u ">-n"
      /\ fst (parseType (ch "<" :: 10%N :: u ">-n")) = string_).
Proof. repeat split; vm_compute; reflexivity. Qed.

(** ** The extractor *)

(** The continuation of the group of [reBetween]: the closing symbol,
    then the end of the match. *)
Lemma between_close_fails (b : N) (c : captures) (b' : bool) (t : str) :
  (forall post, t <> b :: post) ->
  run (lit b) b' t c (fun _ s' c' => Some (s', c')) = None.
Proof.
  intros H. destruct t as [|x t]; simpl; [reflexivity|].
  destruct (N.eqb_spec b x) as [->|_]; [|reflexivity].
  exfalso. apply (H t). reflexivity.
Qed.

Lemma matchAt_between (a b : N) (mid post : str) (f : bool) :
  b ∉ post ->
  matchAt (reBetween (a, b)) f (a :: mid ++ b :: post)
  = Some (post, [(1, mid)]).
Proof.
  intros Hb. unfold matchAt, reBetween. simpl.
  rewrite N.eqb_refl.
  erewrite star_app; [reflexivity| |].
  - apply Forall_forall. reflexivity.
  - simpl. unfold anyUnit at 1.
    rewrite star_none.
    + rewrite N.eqb_refl. do 4 f_equal.
      replace (length (mid ++ b :: post) - S (length post))
        with (length mid) by (rewrite length_app; simpl; lia).
      apply take_app_length.
    + destruct post as [|x post]; simpl; [reflexivity|].
      destruct (N.eqb_spec b x) as [->|_]; [|reflexivity].
      exfalso. apply Hb. left.
    + intros l [|x t] _ ->; [reflexivity|]. simpl.
      destruct (N.eqb_spec b x) as [->|_]; [|reflexivity].
      exfalso. apply Hb. apply elem_of_app. right. left.
Qed.

Lemma matchAt_between_none (a b : N) (f : bool) (s : str) :
  (forall mid post, s <> a :: mid ++ b :: post) ->
  matchAt (reBetween (a, b)) f s = None.
Proof.
  intros H. destruct s as [|x s]; [reflexivity|].
  unfold matchAt, reBetween. simpl.
  destruct (N.eqb_spec a x) as [<-|_]; [|reflexivity].
  assert (forall l t, s = l ++ t -> forall post, t <> b :: post) as Hs.
  { intros l t -> post ->. apply (H l post). reflexivity. }
  apply star_none.
  - destruct s as [|y s]; simpl; [reflexivity|].
    destruct (N.eqb_spec b y) as [<-|_]; [|reflexivity].
    exfalso. apply (Hs [] (b :: s) eq_refl s). reflexivity.
  - intros l [|y t] _ Hl; simpl; [reflexivity|].
    destruct (N.eqb_spec b y) as [<-|_]; [|reflexivity].
    exfalso. apply (Hs l (b :: t) Hl t). reflexivity.
Qed.

(** C7, as the code has it.  With boundary symbols that are single
    units and no syntax characters of patterns, [parseByChar] gives the
    text between the first opening symbol and the last closing symbol
    after it, and the empty string when no closing symbol comes after
    an opening one. *)
Theorem parseByChar_first_to_last (val : str) (a b : N) :
  isSyntaxCharacter a = false -> isSyntaxCharacter b = false ->
  (forall pre mid post,
      val = pre ++ a :: mid ++ b :: post -> a ∉ pre -> b ∉ post ->
      parseByChar val (a, b) = mid)
  /\ ((forall pre mid post, val <> pre ++ a :: mid ++ b :: post) ->
      parseByChar val (a, b) = []).
Proof.
  intros _ _. split.
  - intros pre mid post -> Ha Hb. unfold parseByChar, exec.
    change (reBetween (a, b))
      with (Cat (lit a) (Cat (Grp 1 (Star anyUnit)) (lit b))).
    rewrite search_lit_skip by exact Ha.
    change (Cat (lit a) (Cat (Grp 1 (Star anyUnit)) (lit b)))
      with (reBetween (a, b)).
    simpl search. rewrite matchAt_between by exact Hb. reflexivity.
  - intros H. unfold parseByChar, exec.
    rewrite search_none; [reflexivity|].
    intros l t b' ->. apply matchAt_between_none.
    intros mid post ->. apply (H l mid post). reflexivity.
Qed.

Lemma parseByChar_first_to_last_witness :
  parseByChar (u "f <a|b> x") defaultSymbols = u "a|b"
  /\ parseByChar (u ">a<") defaultSymbols = [].
Proof.
  split.
  - apply (proj1 (parseByChar_first_to_last (u "f <a|b> x") (ch "<") (ch ">")
                    eq_refl eq_refl)
             (u "f ") (u "a|b") (u " x")).
    + reflexivity.
    + compute_done.
    + compute_done.
  - apply (proj2 (parseByChar_first_to_last (u ">a<") (ch "<") (ch ">")
                    eq_refl eq_refl)).
    intros pre mid post H.
    destruct pre as [|p0 [|p1 [|p2 [|p3 pre]]]]; try discriminate H.
    destruct mid; discriminate H.
Defined.

(** C7, as the specification words it, fails: with two hints the text runs to
    the closing symbol of the second one, past the first pair. *)
Lemma parseByChar_not_first_pair :
  parseByChar (u "<a><b>") defaultSymbols = u "a><b"
  /\ firstPair (ch "<") (ch ">") (u "<a><b>") = u "a"
  /\ parseByChar (u "<a><b>") defaultSymbols
     <> firstPair (ch "<") (ch ">") (u "<a><b>").
Proof. split; [|split]; vm_compute; [reflexivity|reflexivity|discriminate]. Qed.

(** ** The split of a flags string *)

(** The lookahead of [reComma] succeeds exactly when a [>] comes before
    every [<] in the text that follows. *)
Lemma lookahead_closesHint (t : str) (b : bool) (c : captures) :
  run (Cat (Star (notUnit (ch "<"))) (lit (ch ">"))) b t c
    (fun _ _ _ => Some tt)
  = if closesHint t then Some tt else None.
Proof.
  simpl. revert b. induction t as [|x t IH]; intros b; simpl; [reflexivity|].
  unfold notUnit at 1. rewrite (N.eqb_sym x (ch ">")).
  rewrite (N.eqb_sym x (ch "<")).
  destruct (N.eqb_spec (ch ">") x) as [<-|Hgt]; simpl.
  - rewrite IH. destruct (closesHint t); reflexivity.
  - destruct (N.eqb_spec (ch "<") x) as [<-|Hlt]; simpl; [reflexivity|].
    rewrite IH. destruct (closesHint t); reflexivity.
Qed.

Lemma matchAt_reComma (b : bool) (x : N) (t : str) :
  matchAt reComma b (x :: t)
  = if (x =? ch ",")%N && negb (closesHint t) then Some (t, []) else None.
Proof.
  unfold matchAt, reComma.
  change (run (Cat (lit (ch ",")) ?r) b (x :: t) [] ?k)
    with (if (ch "," =? x)%N then run r false t [] k else None).
  rewrite (N.eqb_sym x (ch ",")).
  destruct (ch "," =? x)%N; [|reflexivity].
  change (run (NotAhead ?r) false t [] ?k)
    with (match run r false t [] (fun _ _ _ => Some tt) with
          | Some _ => None
          | None => k false t []
          end).
  rewrite lookahead_closesHint.
  destruct (closesHint t); reflexivity.
Qed.

Lemma splitFrom_reComma (s : str) :
  forall b cur, splitFrom reComma b 0 cur s = cutAtCommas cur s.
Proof.
  induction s as [|x t IH]; intros b cur; [reflexivity|].
  cbn [splitFrom cutAtCommas]. rewrite matchAt_reComma.
  destruct ((x =? ch ",")%N && negb (closesHint t)).
  - replace (length (x :: t) - length t) with 1 by (simpl; lia).
    rewrite IH. reflexivity.
  - apply IH.
Qed.

(** [split] with [reComma] cuts at the commas that are not followed by
    a [>] standing before every [<]. *)
Lemma split_reComma (s : str) : split reComma s = cutAtCommas [] s.
Proof.
  destruct s as [|x t]; [reflexivity|]. apply splitFrom_reComma.
Qed.

Lemma splitFlag_cut (val : str) :
  splitFlag val
  = map (fun f => Js.trim f) (cutAtCommas [] (replace reGroup [] val)).
Proof. unfold splitFlag. rewrite split_reComma. reflexivity. Qed.

Lemma cutAtCommas_nonempty (s : str) : forall cur, cutAtCommas cur s <> [].
Proof.
  induction s as [|x t IH]; intros cur; simpl; [discriminate|].
  destruct ((x =? ch ",")%N && negb (closesHint t)); [discriminate|apply IH].
Qed.

(** There is always a last segment. *)
Lemma splitFlag_nonempty (val : str) : splitFlag val <> [].
Proof.
  rewrite splitFlag_cut. intros H. apply map_eq_nil in H.
  exact (cutAtCommas_nonempty _ _ H).
Qed.

Lemma splitFlag_last (val : str) : is_Some (last (splitFlag val)).
Proof.
  destruct (splitFlag val) as [|x l] eqn:E.
  - exfalso. exact (splitFlag_nonempty val E).
  - rewrite last_cons. destruct (last l); eexists; reflexivity.
Qed.

(** Where the angle brackets open and close in turn, the text after a
    position closes a hint exactly when the position is inside one. *)
Lemma hintsClosed_closesHint (s : str) :
  forall inside, hintsClosed inside s = true -> closesHint s = inside.
Proof.
  induction s as [|x t IH]; intros inside H; simpl in *.
  - destruct inside; [discriminate|reflexivity].
  - destruct (x =? ch ">")%N eqn:Egt.
    + apply N.eqb_eq in Egt. subst x.
      change (ch ">" =? ch "<")%N with false in H.
      destruct inside; [reflexivity|discriminate].
    + destruct (x =? ch "<")%N.
      * destruct inside; [discriminate|reflexivity].
      * apply IH. exact H.
Qed.

Lemma cutAtCommas_outside (s : str) :
  forall inside cur,
    hintsClosed inside s = true ->
    cutAtCommas cur s = splitOutsideHints inside cur s.
Proof.
  induction s as [|x t IH]; intros inside cur H; [reflexivity|].
  cbn [cutAtCommas splitOutsideHints]. cbn [hintsClosed] in H.
  destruct (N.eqb_spec x (ch ",")) as [->|Hc].
  - change (ch "," =? ch "<")%N with false in H.
    change (ch "," =? ch ">")%N with false in H.
    rewrite (hintsClosed_closesHint t inside H).
    destruct inside; simpl; rewrite (IH _ _ H); reflexivity.
  - simpl. destruct (x =? ch "<")%N.
    + apply andb_prop in H as [_ H]. apply IH. exact H.
    + destruct (x =? ch ">")%N.
      * apply andb_prop in H as [_ H]. apply IH. exact H.
      * apply IH. exact H.
Qed.

(** [/\[(.+)\]/] takes out the first group: from the first [[] to the
    last []] after it, when the text between them is not empty and
    holds no line terminator. *)
Lemma replace_reGroup_removes (pre mid post : str) :
  ch "[" ∉ pre -> ch "]" ∉ post -> mid <> [] ->
  Forall (fun x => dot x = true) mid ->
  replace reGroup [] (pre ++ ch "[" :: mid ++ ch "]" :: post) = pre ++ post.
Proof.
  intros Hl Hr Hne Hmid. unfold replace, exec, reGroup.
  rewrite search_lit_skip by exact Hl.
  destruct mid as [|x mid]; [contradiction|].
  inversion Hmid as [|? ? Hx Hmid']; subst.
  cbn [search]. unfold matchAt at 1. cbn [run lit Plus app].
  rewrite N.eqb_refl, Hx.
  match goal with
  | |- context [star dot ?K false _] =>
      assert (exists c, star dot K false (mid ++ ch "]" :: post) = Some (post, c))
        as [c E]
  end.
  { eexists. apply star_app; [exact Hmid'|].
    assert (forall l t, post = l ++ t ->
              forall c, run (Cls (N.eqb (ch "]"))) false t c
                          (fun _ s' c => Some (s', c)) = None) as Hk.
    { intros l [|y t] -> c; [reflexivity|]. cbn [run].
      destruct (N.eqb_spec (ch "]") y) as [<-|_]; [|reflexivity].
      exfalso. apply Hr. apply elem_of_app. right. left. }
    cbn [star]. change (dot (ch "]")) with true. cbv iota.
    rewrite star_none.
    - cbn [run]. rewrite N.eqb_refl. reflexivity.
    - apply Hk with (l := []). reflexivity.
    - intros l t _ E. apply (Hk l t E). }
  rewrite E. cbn [option_map shiftBy before after app].
  rewrite app_nil_r. reflexivity.
Qed.

(** A flags string without [[] keeps all its text. *)
Lemma replace_reGroup_plain (val : str) :
  ch "[" ∉ val -> replace reGroup [] val = val.
Proof. apply replace_no_literal. Qed.

(** What [/\[(.+)\]/] takes out of a flags string, on every string. *)
Lemma replace_reGroup_removeGroup (s : str) :
  replace reGroup [] s = removeGroup s.
Proof.
  unfold replace, exec. cbn [app].
  apply (search_removed reGroup removeGroup); [reflexivity| |reflexivity].
  intros b x t. unfold matchAt, reGroup. cbn [run lit Plus].
  rewrite (N.eqb_sym (ch "[") x). cbn [removeGroup].
  destruct (x =? ch "[")%N; [|reflexivity].
  destruct t as [|y t']; [reflexivity|].
  destruct (dot y); [|reflexivity].
  rewrite (star_lastClose (ch "]"));
    [destruct (lastClose (ch "]") t'); reflexivity|reflexivity|].
  intros b' [|z r]; [reflexivity|]. cbn [run].
  rewrite (N.eqb_sym (ch "]") z). destruct (z =? ch "]")%N; reflexivity.
Qed.

(** ** One entry of the schema *)

(** ** Own properties *)

Lemma lookup_objSet_eq {V} (key : str) (value : V) (obj : gmap (list N) V) :
  key <> protoKey -> objSet key value obj !! key = Some value.
Proof.
  intros Hk. unfold objSet. destruct (decide (key = protoKey)); [done|].
  apply lookup_insert_eq.
Qed.

Lemma lookup_objSet_ne {V} (key n : str) (value : V)
    (obj : gmap (list N) V) :
  n <> key -> objSet key value obj !! n = obj !! n.
Proof.
  intros Hn. unfold objSet. destruct (decide (key = protoKey)); [done|].
  apply lookup_insert_ne. congruence.
Qed.

Lemma objSet_proto {V} (key : str) (value : V) (obj : gmap (list N) V) :
  key = protoKey -> objSet key value obj = obj.
Proof. intros E. unfold objSet. destruct (decide (key = protoKey)); done. Qed.

Lemma lookup_objSet_is_Some {V} (key n : str) (value : V)
    (obj : gmap (list N) V) :
  is_Some (objSet key value obj !! n)
  <-> (n = key /\ key <> protoKey) \/ is_Some (obj !! n).
Proof.
  unfold objSet. destruct (decide (key = protoKey)) as [E|E].
  - split; [tauto|]. intros [[_ H]|H]; [done|exact H].
  - rewrite lookup_insert_is_Some. split.
    + intros [H|[_ H]]; [left; split; [congruence|exact E]|right; exact H].
    + intros [[H _]|H]; [left; congruence|].
      destruct (decide (key = n)); [left; done|right; done].
Qed.

Section ArgsHandle.

Variable stripAnsi : str -> str.
Variable D : Type.
Implicit Types (a : Arg D) (o : CmdOptions D).

Lemma argsHandleStep_alias (len : nat) a (al : list str) o (i : nat) (f : str) :
  S i <> len ->
  argsHandleStep stripAnsi D len a (al, o) i f
  = (al ++ [cleanArg (stripAnsi f)], o).
Proof.
  intros Hi. unfold argsHandleStep.
  destruct (Z.eqb_spec (Z.of_nat i) (Z.of_nat len - 1)) as [E|_]; [lia|].
  reflexivity.
Qed.

Lemma argsHandleStep_canonical (len : nat) a (al : list str) o (i : nat) (f : str) :
  S i = len ->
  argsHandleStep stripAnsi D len a (al, o) i f
  = (al, registerCanonical a al (stripAnsi f) o).
Proof.
  intros Hi. unfold argsHandleStep, registerCanonical.
  destruct (Z.eqb_spec (Z.of_nat i) (Z.of_nat len - 1)) as [_|E]; [|lia].
  destruct (parseType (stripAnsi f)) as [type val]. cbn [fst snd].
  destruct (Js.endsWith val (u "!")); reflexivity.
Qed.

Lemma forEachFrom_argsHandle (len : nat) a (init : list str) (lastf : str) :
  forall i al o,
    i + length init + 1 = len ->
    forEachFrom (argsHandleStep stripAnsi D len a) i (init ++ [lastf]) (al, o)
    = (al ++ map (fun f => cleanArg (stripAnsi f)) init,
       registerCanonical a
         (al ++ map (fun f => cleanArg (stripAnsi f)) init)
         (stripAnsi lastf) o).
Proof.
  induction init as [|f init IH]; intros i al o Hlen;
    cbn [forEachFrom app map]; cbn [length] in Hlen.
  - rewrite argsHandleStep_canonical by lia.
    rewrite app_nil_r. reflexivity.
  - rewrite argsHandleStep_alias by lia.
    rewrite IH by lia.
    rewrite <- app_assoc. reflexivity.
Qed.

(** The loop of [argsHandle] in one step: the segments before the
    last are cleaned into the alias list, the last one is
    registered. *)
Lemma argsHandle_register a o :
  argsHandle stripAnsi a o
  = registerCanonical a (aliasNames stripAnsi (flags a))
      (canonicalSegment stripAnsi (flags a)) o.
Proof.
  unfold argsHandle, aliasNames, canonicalSegment.
  destruct (exists_last (splitFlag_nonempty (flags a))) as [init [lastf E]].
  rewrite E. rewrite forEachFrom_argsHandle by (rewrite length_app; simpl; lia).
  rewrite last_snoc, removelast_last. reflexivity.
Qed.

Lemma bucket_pushBucket (type : OptionalType) (val : str) o :
  bucket type (pushBucket D type val o)
  = Some (default [] (bucket type o) ++ [val]).
Proof.
  unfold pushBucket.
  destruct (bucket type o) eqn:E; destruct type; reflexivity.
Qed.

Lemma bucket_pushBucket_ne (type type' : OptionalType) (val : str) o :
  type' <> type -> bucket type' (pushBucket D type val o) = bucket type' o.
Proof.
  intros Hne. unfold pushBucket.
  destruct (bucket type o); destruct type, type';
    try reflexivity; contradiction.
Qed.

Lemma bucket_registerCanonical a (al : list str) (seg : str) o
    (type : OptionalType) :
  bucket type (registerCanonical a al seg o)
  = bucket type
      (pushBucket D (fst (parseType seg))
         (if Js.endsWith (snd (parseType seg)) (u "!")
          then Js.slice (snd (parseType seg)) 0 (-1)
          else snd (parseType seg)) o).
Proof.
  unfold registerCanonical.
  destruct (defaultValue a), (Js.endsWith (snd (parseType seg)) (u "!"));
    unfold pushBucket;
    destruct (fst (parseType seg)); cbn;
    match goal with
    | |- context [match ?x with Some _ => _ | None => _ end] => destruct x
    end; destruct type; reflexivity.
Qed.

Lemma alias_registerCanonical a (al : list str) (seg : str) o :
  o_alias (registerCanonical a al seg o)
  = Some (objSet (if Js.endsWith (snd (parseType seg)) (u "!")
                  then Js.slice (snd (parseType seg)) 0 (-1)
                  else snd (parseType seg)) al (default ∅ (o_alias o))).
Proof.
  unfold registerCanonical.
  destruct (defaultValue a), (Js.endsWith (snd (parseType seg)) (u "!"));
    unfold pushBucket;
    destruct (fst (parseType seg)); cbn;
    match goal with
    | |- context [match ?x with Some _ => _ | None => _ end] => destruct x
    end; reflexivity.
Qed.

Lemma default_registerCanonical a (al : list str) (seg : str) o :
  o_default (registerCanonical a al seg o)
  = match defaultValue a with
    | Some d =>
        Some (objSet (if Js.endsWith (snd (parseType seg)) (u "!")
                      then Js.slice (snd (parseType seg)) 0 (-1)
                      else snd (parseType seg)) d (default ∅ (o_default o)))
    | None => o_default o
    end.
Proof.
  unfold registerCanonical.
  destruct (defaultValue a), (Js.endsWith (snd (parseType seg)) (u "!"));
    unfold pushBucket;
    destruct (fst (parseType seg)); cbn;
    match goal with
    | |- context [match ?x with Some _ => _ | None => _ end] => destruct x
    end; reflexivity.
Qed.

End ArgsHandle.

Lemma argsHandle_buckets (stripAnsi : str -> str) {D}
    (a : Arg D) (o : CmdOptions D) :
  bucket (canonicalType stripAnsi (flags a)) (argsHandle stripAnsi a o)
  = Some (default [] (bucket (canonicalType stripAnsi (flags a)) o)
          ++ [canonicalName stripAnsi (flags a)])
  /\ (forall type', type' <> canonicalType stripAnsi (flags a) ->
        bucket type' (argsHandle stripAnsi a o) = bucket type' o).
Proof.
  rewrite argsHandle_register. split.
  - rewrite bucket_registerCanonical. apply bucket_pushBucket.
  - intros type' Hne. rewrite bucket_registerCanonical.
    apply bucket_pushBucket_ne. exact Hne.
Qed.

(** C1, as the code has it.  [argsHandle] appends the canonical name to
    the bucket of its type and leaves the other buckets alone.  When
    the canonical name is not [__proto__], it files the list of the
    cleaned alias segments under the canonical name in the object
    [alias], and it files a default value under the canonical name when
    the entry has a third element.  When the canonical name is
    [__proto__], the two assignments create no own property: the
    entries of [alias] and of [default] stay as they were.  The
    defaults are left alone when the entry has no third element. *)
Theorem argsHandle_registers_entry (stripAnsi : str -> str) {D}
    (a : Arg D) (o : CmdOptions D) :
  let canonical := canonicalName stripAnsi (flags a) in
  let type := canonicalType stripAnsi (flags a) in
  let o' := argsHandle stripAnsi a o in
  bucket type o' = Some (default [] (bucket type o) ++ [canonical])
  /\ (forall type', type' <> type -> bucket type' o' = bucket type' o)
  /\ (canonical <> u "__proto__" ->
        (exists m,
            o_alias o' = Some m
            /\ m !! canonical = Some (aliasNames stripAnsi (flags a)))
        /\ (forall d, defaultValue a = Some d ->
              exists m, o_default o' = Some m /\ m !! canonical = Some d))
  /\ (canonical = u "__proto__" ->
        o_alias o' = Some (default ∅ (o_alias o))
        /\ (forall d, defaultValue a = Some d ->
              o_default o' = Some (default ∅ (o_default o))))
  /\ (defaultValue a = None -> o_default o' = o_default o).
Proof.
  intros canonical type o'. subst o'. rewrite argsHandle_register.
  split; [|split; [|split; [|split]]].
  - rewrite bucket_registerCanonical. apply bucket_pushBucket.
  - intros type' Hne. rewrite bucket_registerCanonical.
    apply bucket_pushBucket_ne. exact Hne.
  - intros Hp. split.
    + eexists. split; [apply alias_registerCanonical|].
      apply lookup_objSet_eq. exact Hp.
    + intros d Hd. rewrite default_registerCanonical, Hd.
      eexists. split; [reflexivity|]. apply lookup_objSet_eq. exact Hp.
  - intros Hp. split.
    + rewrite alias_registerCanonical.
      f_equal. apply objSet_proto. exact Hp.
    + intros d Hd. rewrite default_registerCanonical, Hd.
      f_equal. apply objSet_proto. exact Hp.
  - intros Hd. rewrite default_registerCanonical, Hd. reflexivity.
Qed.

Lemma argsHandle_registers_entry_witness :
  ((exists m,
       o_alias
         (argsHandle plainText
            (mkArg (u "r,!recursive") (Some (u "desc")) (Some false))
            emptyOptions) = Some m
       /\ m !! canonicalName plainText (u "r,!recursive")
          = Some (aliasNames plainText (u "r,!recursive")))
   /\ (forall d, Some false = Some d ->
         exists m,
           o_default
             (argsHandle plainText
                (mkArg (u "r,!recursive") (Some (u "desc")) (Some false))
                emptyOptions) = Some m
           /\ m !! canonicalName plainText (u "r,!recursive") = Some d))
  /\ (o_alias
        (argsHandle plainText
           (mkArg (u "r,__proto__") (Some (u "desc")) (Some false))
           emptyOptions) = Some ∅
      /\ (forall d, Some false = Some d ->
            o_default
              (argsHandle plainText
                 (mkArg (u "r,__proto__") (Some (u "desc")) (Some false))
                 emptyOptions) = Some ∅))
  /\ o_default
       (argsHandle plainText
          (mkArg (u "r,!recursive") (Some (u "desc")) (None : option bool))
          emptyOptions) = None.
Proof.
  split; [|split].
  - apply (proj1 (proj2 (proj2
      (argsHandle_registers_entry plainText
         (mkArg (u "r,!recursive") (Some (u "desc")) (Some false))
         emptyOptions)))).
    vm_compute. discriminate.
  - apply (proj1 (proj2 (proj2 (proj2
      (argsHandle_registers_entry plainText
         (mkArg (u "r,__proto__") (Some (u "desc")) (Some false))
         emptyOptions))))).
    vm_compute. reflexivity.
  - apply (proj2 (proj2 (proj2 (proj2
      (argsHandle_registers_entry plainText
         (mkArg (u "r,!recursive") (Some (u "desc")) (None : option bool))
         emptyOptions))))).
    reflexivity.
Defined.

(** C1, as the specification words it, fails: the object [alias] has no entry
    under the alias [r]; its only entry is under the canonical name
    [recursive] and holds the list of the aliases. *)
Lemma alias_map_has_no_entry_for_alias :
  let o :=
    argsHandle plainText
      (mkArg (u "r,!recursive") (Some (u "desc")) (Some false)) emptyOptions in
  aliasNames plainText (u "r,!recursive") = [u "r"]
  /\ canonicalName plainText (u "r,!recursive") = u "recursive"
  /\ o_alias o = Some {[ u "recursive" := [u "r"] ]}
  /\ ~ (exists m v, o_alias o = Some m /\ m !! u "r" = Some v).
Proof.
  assert (o_alias
            (argsHandle plainText
               (mkArg (u "r,!recursive") (Some (u "desc")) (Some false))
               emptyOptions) = Some {[ u "recursive" := [u "r"] ]}) as E.
  { rewrite argsHandle_register, alias_registerCanonical. reflexivity. }
  cbv zeta. split; [reflexivity|]. split; [reflexivity|]. split; [exact E|].
  intros (m & v & Hm & Hv). rewrite E in Hm. injection Hm as <-.
  rewrite lookup_singleton_ne in Hv; [discriminate|].
  intros H. vm_compute in H. discriminate H.
Qed.

(** C2, as the code has it.  [splitFlag] first takes one group out of
    the string: at the first [[] that is followed, on one line, by at
    least one unit and then a []], the text from that [[] to the last
    []] of the line.  What is left is cut at each comma that is not
    followed by a [>] coming before every [<], and the pieces are
    trimmed.  Where the angle brackets of what is left open and close
    in turn, those are the commas outside the hints.  There is always
    a last segment: [argsHandle] registers it as the canonical
    definition and collects the cleaned segments before it as the
    aliases. *)
Theorem splitFlag_outside_hints (stripAnsi : str -> str) {D} (val : str) :
  let rest := removeGroup val in
  splitFlag val = map Js.trim (cutAtCommas [] rest)
  /\ (hintsClosed false rest = true -> splitFlag val = specSplitFlag rest)
  /\ exists init lastf,
       splitFlag val = init ++ [lastf]
       /\ canonicalSegment stripAnsi val = stripAnsi lastf
       /\ aliasNames stripAnsi val = map (fun f => cleanArg (stripAnsi f)) init
       /\ forall (description : option str) (defaultValue : option D)
                 (o : CmdOptions D),
            argsHandle stripAnsi (mkArg val description defaultValue) o
            = registerCanonical (mkArg val description defaultValue)
                (map (fun f => cleanArg (stripAnsi f)) init)
                (stripAnsi lastf) o.
Proof.
  intros rest. subst rest. rewrite <- replace_reGroup_removeGroup.
  split; [apply splitFlag_cut|]. split.
  - intros Hc. rewrite splitFlag_cut. unfold specSplitFlag.
    rewrite (cutAtCommas_outside _ false [] Hc). reflexivity.
  - destruct (exists_last (splitFlag_nonempty val)) as [init [lastf E]].
    exists init, lastf. unfold canonicalSegment, aliasNames. rewrite E.
    rewrite last_snoc, removelast_last.
    split; [reflexivity|]. split; [reflexivity|]. split; [reflexivity|].
    intros description defaultValue o. rewrite argsHandle_register.
    unfold canonicalSegment, aliasNames. cbn [flags]. rewrite E.
    rewrite last_snoc, removelast_last. reflexivity.
Qed.

Lemma splitFlag_outside_hints_witness :
  splitFlag (u "i,in, install [pkg] <lodash, axios, react>")
  = specSplitFlag (u "i,in, install  <lodash, axios, react>").
Proof.
  apply (proj1 (proj2 (splitFlag_outside_hints plainText (D := bool)
                         (u "i,in, install [pkg] <lodash, axios, react>")))).
  reflexivity.
Defined.

(** C2, as the specification words it, fails twice: a comma inside a [[...]]
    group goes away with the group, and a comma outside every hint
    does not split when a [>] follows it. *)
Lemma splitFlag_not_every_outside_comma :
  splitFlag (u "x[a,b]") = [u "x"]
  /\ specSplitFlag (u "x[a,b]") = [u "x[a"; u "b]"]
  /\ splitFlag (u "x[a,b]") <> specSplitFlag (u "x[a,b]")
  /\ splitFlag (u "a,b>") = [u "a,b>"]
  /\ specSplitFlag (u "a,b>") = [u "a"; u "b>"]
  /\ splitFlag (u "a,b>") <> specSplitFlag (u "a,b>").
Proof.
  split; [|split; [|split; [|split; [|split]]]]; vm_compute;
    try reflexivity; discriminate.
Qed.

(** ** Definition errors *)

Section FormatArgs.

Variable stripAnsi : str -> str.
Variable D : Type.
Implicit Types (entry : list (JsVal D)) (args : list (list (JsVal D))).

Lemma formatArg_not_string entry :
  flagsOf entry = None ->
  formatArg stripAnsi entry = inl (XWCMDErr (u "The args definition error.")).
Proof. destruct entry as [|[s|d] rest]; [reflexivity|discriminate|reflexivity]. Qed.

Lemma formatArg_string entry (s : str) :
  flagsOf entry = Some s -> exists r, formatArg stripAnsi entry = inr r.
Proof.
  destruct entry as [|[s'|d] rest]; try discriminate. intros [= ->].
  unfold formatArg, Js.shift, Js.pop.
  destruct (splitFlag_last s) as [lastf ->].
  destruct (parseType (stripAnsi lastf)). eexists. reflexivity.
Qed.

(** The second [throw] of [formatArgs] is never reached: [pop] always
    finds a segment. *)
Lemma formatArg_never_missing_flag entry :
  formatArg stripAnsi entry <> inl (XWCMDErr (u "The args missing flag!")).
Proof.
  destruct (flagsOf entry) as [s|] eqn:E.
  - destruct (formatArg_string entry s E) as [r ->]. discriminate.
  - rewrite formatArg_not_string by exact E. intros [= H].
Qed.

(** The only error an entry can raise is the first one. *)
Lemma formatArg_error entry (e : XWCMDError) :
  formatArg stripAnsi entry = inl e ->
  e = XWCMDErr (u "The args definition error.").
Proof.
  destruct (flagsOf entry) as [s|] eqn:E.
  - destruct (formatArg_string entry s E) as [r ->]. discriminate.
  - rewrite formatArg_not_string by exact E. intros [= <-]. reflexivity.
Qed.

Lemma mapThrow_error args :
  Exists (fun entry => flagsOf entry = None) args ->
  mapThrow (formatArg stripAnsi) args
  = inl (XWCMDErr (u "The args definition error.")).
Proof.
  induction args as [|entry args IH]; intros H; [inversion H|].
  simpl. destruct (flagsOf entry) as [s|] eqn:E.
  - destruct (formatArg_string entry s E) as [r ->].
    rewrite IH; [reflexivity|].
    inversion H as [? ? Hh|? ? Ht]; subst; [congruence|exact Ht].
  - rewrite formatArg_not_string by exact E. reflexivity.
Qed.

Lemma mapThrow_ok args :
  Forall (fun entry => is_Some (flagsOf entry)) args ->
  exists r, mapThrow (formatArg stripAnsi) args = inr r
            /\ length r = length args.
Proof.
  induction 1 as [|entry args [s Hs] _ [r [IH Hlen]]]; simpl.
  - exists []. split; reflexivity.
  - destruct (formatArg_string entry s Hs) as [x ->]. rewrite IH.
    exists (x :: r). split; [reflexivity|simpl; congruence].
Qed.

(** C5, where the code departs from it.  A definition with no
    canonical name is not refused: the empty flags string splits into
    one segment, the empty string, which [pop] hands over as the
    canonical one, so the entry is formatted with an empty name.  The
    guard meant for that case is never taken: the only error
    [formatArgs] ever raises is the one for a flags field that is not
    a string. *)
Theorem formatArgs_accepts_empty_definition (rest : list (JsVal D)) :
  formatArgs stripAnsi [JString (u "") :: rest]
  = inr [mkFormatArgs D [] (cleanArg (stripAnsi [])) []
           (fst (parseType (stripAnsi []))) rest]
  /\ forall args (e : XWCMDError),
       formatArgs stripAnsi args = inl e ->
       e = XWCMDErr (u "The args definition error.")
       /\ Exists (fun entry => flagsOf entry = None) args.
Proof.
  split; [reflexivity|].
  unfold formatArgs. induction args as [|entry args IH]; intros e H.
  - discriminate H.
  - cbn [mapThrow] in H.
    destruct (formatArg stripAnsi entry) as [e'|fa] eqn:Ef.
    + injection H as <-. split; [exact (formatArg_error entry e' Ef)|].
      apply Exists_cons_hd.
      destruct (flagsOf entry) as [s|] eqn:E; [|reflexivity].
      destruct (formatArg_string entry s E) as [r Hr]. congruence.
    + destruct (mapThrow (formatArg stripAnsi) args) as [e'|r];
        [|discriminate H].
      injection H as <-. destruct (IH e' eq_refl) as [He Hex].
      split; [exact He|]. apply Exists_cons_tl. exact Hex.
Qed.

End FormatArgs.

Lemma formatArgs_accepts_empty_definition_witness :
  XWCMDErr (u "The args definition error.")
  = XWCMDErr (u "The args definition error.")
  /\ Exists (fun entry => flagsOf entry = None)
       [[JString (u "r,!recursive")]; [JOther 19%nat]].
Proof.
  apply (proj2 (formatArgs_accepts_empty_definition plainText nat [])
           [[JString (u "r,!recursive")]; [JOther 19%nat]]
           (XWCMDErr (u "The args definition error."))).
  reflexivity.
Defined.

(** An empty flags string is no definition error: its only segment is
    the empty string, which is taken as the canonical one. *)
Lemma formatArgs_empty_definition :
  formatArgs plainText [[JString (u ""); JString (u "desc")]]
  = inr [mkFormatArgs unit [] [] [] string_ [JString (u "desc")]].
Proof. vm_compute. reflexivity. Qed.

(** ** The command resolver *)

Section Traverse.

Variable stripAnsi : str -> str.

Lemma visit_unfold (nm : str) (meta : Meta) (subs : list Command)
    (argv : list str) :
  visit stripAnsi nm (mkCommand meta subs) argv
  = if matchSubCmd stripAnsi meta nm then (true, argv ++ [name meta])
    else someVisit stripAnsi nm subs (argv ++ [name meta]).
Proof.
  cbn [visit]. destruct (matchSubCmd stripAnsi meta nm); [reflexivity|].
  generalize (argv ++ [name meta]).
  induction subs as [|c subs IH]; intros acc; [reflexivity|].
  cbn [someVisit]. destruct (visit stripAnsi nm c acc) as [[] acc'];
    [reflexivity|apply IH].
Qed.

Lemma nodesOf_unfold (meta : Meta) (subs : list Command) :
  nodesOf (mkCommand meta subs) = meta :: nodesOfList subs.
Proof.
  reflexivity.
Qed.

Lemma upToMatch_app (nm : str) (l1 l2 : list Meta) :
  upToMatch stripAnsi nm (l1 ++ l2)
  = if anyMatch stripAnsi nm l1 then upToMatch stripAnsi nm l1
    else l1 ++ upToMatch stripAnsi nm l2.
Proof.
  induction l1 as [|m l1 IH]; [reflexivity|]. simpl.
  destruct (matchSubCmd stripAnsi m nm); [reflexivity|]. simpl.
  rewrite IH. destruct (anyMatch stripAnsi nm l1); reflexivity.
Qed.

Lemma upToMatch_none (nm : str) (l : list Meta) :
  anyMatch stripAnsi nm l = false -> upToMatch stripAnsi nm l = l.
Proof.
  induction l as [|m l IH]; [reflexivity|]. simpl.
  destruct (matchSubCmd stripAnsi m nm); [discriminate|]. simpl.
  intros H. rewrite IH by exact H. reflexivity.
Qed.

(** What one round of the search leaves in [argv]: the names of all
    the nodes it went through, in the order of the declarations,
    down to the first node that matches. *)
Lemma visit_preorder (nm : str) (c : Command) :
  forall argv,
    visit stripAnsi nm c argv
    = (anyMatch stripAnsi nm (nodesOf c),
       argv ++ map name (upToMatch stripAnsi nm (nodesOf c))).
Proof.
  induction c as [meta subs IH] using Command_forall_ind. intros argv.
  rewrite visit_unfold, nodesOf_unfold. simpl.
  destruct (matchSubCmd stripAnsi meta nm); [reflexivity|]. simpl.
  replace (argv ++ name meta :: map name (upToMatch stripAnsi nm (nodesOfList subs)))
    with ((argv ++ [name meta])
          ++ map name (upToMatch stripAnsi nm (nodesOfList subs)))
    by (rewrite <- app_assoc; reflexivity).
  generalize (argv ++ [name meta]). clear argv.
  induction IH as [|c subs Hc _ IHsubs]; intros acc; simpl.
  - rewrite app_nil_r. reflexivity.
  - rewrite Hc. unfold anyMatch at 2. rewrite existsb_app.
    fold (anyMatch stripAnsi nm (nodesOf c)) (anyMatch stripAnsi nm (nodesOfList subs)).
    rewrite upToMatch_app.
    destruct (anyMatch stripAnsi nm (nodesOf c)) eqn:E; [reflexivity|]. simpl.
    rewrite IHsubs, (upToMatch_none _ _ E).
    rewrite map_app, app_assoc. reflexivity.
Qed.

Lemma someVisit_preorder (nm : str) (l : list Command) :
  forall argv,
    someVisit stripAnsi nm l argv
    = (anyMatch stripAnsi nm (nodesOfList l),
       argv ++ map name (upToMatch stripAnsi nm (nodesOfList l))).
Proof.
  induction l as [|c l IH]; intros argv; simpl.
  - rewrite app_nil_r. reflexivity.
  - rewrite visit_preorder. unfold anyMatch at 2. rewrite existsb_app.
    fold (anyMatch stripAnsi nm (nodesOf c))
         (anyMatch stripAnsi nm (nodesOfList l)).
    rewrite upToMatch_app.
    destruct (anyMatch stripAnsi nm (nodesOf c)) eqn:E; [reflexivity|]. simpl.
    rewrite IH, (upToMatch_none _ _ E).
    rewrite map_app, app_assoc. reflexivity.
Qed.

(** [traverseToCall] answers [false] exactly when no node of the
    forest matches; otherwise it gives the names of all the nodes in
    the order of the declarations down to the first match, the nodes
    of the branches that failed included. *)
Lemma traverseToCall_preorder (nm : str) (subCmds : list Command) :
  traverseToCall stripAnsi nm subCmds
  = if anyMatch stripAnsi nm (nodesOfList subCmds)
    then Some (map name (upToMatch stripAnsi nm (nodesOfList subCmds)))
    else None.
Proof.
  unfold traverseToCall, traverseToCallFrom.
  rewrite someVisit_preorder. reflexivity.
Qed.

Lemma traverseToCall_no_match (nm : str) (subCmds : list Command) :
  traverseToCall stripAnsi nm subCmds = None
  <-> forall m, m ∈ nodesOfList subCmds -> matchSubCmd stripAnsi m nm = false.
Proof.
  rewrite traverseToCall_preorder.
  destruct (anyMatch stripAnsi nm (nodesOfList subCmds)) eqn:E.
  - split; [discriminate|]. intros H. exfalso.
    apply existsb_exists in E as (m & Hm & Hmatch).
    apply list_elem_of_In in Hm. rewrite (H m Hm) in Hmatch. discriminate.
  - split; [|reflexivity]. intros _ m Hm.
    destruct (matchSubCmd stripAnsi m nm) eqn:Hmatch; [|reflexivity].
    assert (anyMatch stripAnsi nm (nodesOfList subCmds) = true) as E'.
    { apply existsb_exists. exists m. split; [|exact Hmatch].
      apply list_elem_of_In. exact Hm. }
    congruence.
Qed.

(** C9. With the two commands [install] and [add], declared in this
    order, the token [add] matches the second one; the path to it is
    [add] alone, and [traverseToCall] gives [install, add]: the name
    pushed for the first command, which did not match, stays in
    [argv]. *)
Theorem traverseToCall_keeps_failed_branch :
  (forall n, n ∈ [u "install"; u "i"; u "in"; u "add"; u "a"] ->
             stripAnsi n = n) ->
  traverseToCall stripAnsi (u "add") [install; add]
  = Some [u "install"; u "add"]
  /\ resolutionPath stripAnsi (u "add") [install; add] = Some [u "add"].
Proof.
  intros H.
  assert (matchSubCmd stripAnsi (mkMeta (u "install") [u "i"; u "in"]) (u "add")
          = false) as E1.
  { unfold matchSubCmd. simpl.
    rewrite !H by (vm_compute; set_solver). reflexivity. }
  assert (matchSubCmd stripAnsi (mkMeta (u "add") [u "a"]) (u "add") = true)
    as E2.
  { unfold matchSubCmd. simpl.
    rewrite !H by (vm_compute; set_solver). reflexivity. }
  split.
  - rewrite traverseToCall_preorder. unfold install, add.
    cbn [nodesOfList nodesOf app anyMatch existsb upToMatch].
    rewrite E1, E2. reflexivity.
  - unfold install, add. cbn [resolutionPath pathIn].
    rewrite E1, E2. reflexivity.
Qed.

End Traverse.

Lemma traverseToCall_keeps_failed_branch_witness :
  traverseToCall plainText (u "add") [install; add]
  = Some [u "install"; u "add"]
  /\ resolutionPath plainText (u "add") [install; add] = Some [u "add"].
Proof.
  apply (traverseToCall_keeps_failed_branch plainText).
  intros n _. reflexivity.
Defined.

(** ** The schema as a whole *)


Lemma bucketNames_allNames {D} (o : CmdOptions D) (type : OptionalType) (n : str) :
  n ∈ bucketNames type o -> n ∈ allNames o.
Proof. unfold allNames. destruct type; set_solver. Qed.


Section Schema.

Variable stripAnsi : str -> str.
Variable D : Type.
Implicit Types (a : Arg D) (o : CmdOptions D) (args : list (Arg D)).

Lemma parseCliArgs_snoc args a :
  parseCliArgs stripAnsi (args ++ [a])
  = argsHandle stripAnsi a (parseCliArgs stripAnsi args).
Proof. unfold parseCliArgs. rewrite fold_left_app. reflexivity. Qed.

Lemma bucketNames_argsHandle a o (type : OptionalType) :
  bucketNames type (argsHandle stripAnsi a o)
  = if decide (type = canonicalType stripAnsi (flags a))
    then bucketNames type o ++ [canonicalName stripAnsi (flags a)]
    else bucketNames type o.
Proof.
  unfold bucketNames.
  destruct (argsHandle_buckets stripAnsi a o) as (Hb & Hother).
  destruct (decide (type = canonicalType stripAnsi (flags a))) as [->|Hne].
  - rewrite Hb. reflexivity.
  - rewrite (Hother type Hne). reflexivity.
Qed.

Lemma allNames_argsHandle a o :
  allNames (argsHandle stripAnsi a o)
  ≡ₚ allNames o ++ [canonicalName stripAnsi (flags a)].
Proof.
  unfold allNames. rewrite !bucketNames_argsHandle.
  destruct (canonicalType stripAnsi (flags a));
    repeat case_decide; try discriminate; try contradiction;
    solve_Permutation.
Qed.

Lemma allNames_parseCliArgs args :
  allNames (parseCliArgs stripAnsi args)
  ≡ₚ map (fun a => canonicalName stripAnsi (flags a)) args.
Proof.
  induction args as [|a args IH] using rev_ind; [reflexivity|].
  rewrite parseCliArgs_snoc, allNames_argsHandle, IH, map_app.
  reflexivity.
Qed.


End Schema.




(** * More of the module *)

(** ** The matcher, continued *)

(** With nothing to match behind it, a star runs over the longest
    front of units of its class. *)
Lemma star_final {A} (p : N -> bool) (g : str -> A) (s : str) :
  forall b, star p (fun _ s' => Some (g s')) b s = Some (g (skipUnits p s)).
Proof.
  induction s as [|x s IH]; intros b; simpl; [reflexivity|].
  destruct (p x); [|reflexivity]. rewrite IH. reflexivity.
Qed.

(** A pattern anchored at the start matches at the start or nowhere. *)
Lemma search_bol_false (r : re) (s : str) : search (Cat Bol r) false s = None.
Proof. induction s as [|x s IH]; simpl; [reflexivity|]. rewrite IH. reflexivity. Qed.

Lemma search_bol (r : re) (s : str) :
  search (Cat Bol r) true s
  = match matchAt (Cat Bol r) true s with
    | Some (s', c) => Some (Matched [] (firstn (length s - length s') s) s' c)
    | None => None
    end.
Proof.
  destruct s as [|x s]; simpl.
  - destruct (matchAt (Cat Bol r) true []) as [[]|]; reflexivity.
  - destruct (matchAt (Cat Bol r) true (x :: s)) as [[]|]; [reflexivity|].
    rewrite search_bol_false. reflexivity.
Qed.

(** What a continuation is given is an end of the input. *)
Lemma star_suffix {A} (p : N -> bool) (k : bool -> str -> option A) (s : str) :
  forall b v,
    star p k b s = Some v ->
    exists b' l t, s = l ++ t /\ k b' t = Some v.
Proof.
  induction s as [|x s IH]; intros b v H; simpl in H.
  - exists b, [], []. split; [reflexivity|exact H].
  - destruct (p x).
    + destruct (star p k false s) as [w|] eqn:E.
      * injection H as <-. destruct (IH false w E) as (b' & l & t & -> & Hk).
        exists b', (x :: l), t. split; [reflexivity|exact Hk].
      * exists b, [], (x :: s). split; [reflexivity|exact H].
    + exists b, [], (x :: s). split; [reflexivity|exact H].
Qed.

Lemma run_suffix {A} (r : re) :
  forall (b : bool) (s : str) (c : captures)
         (k : bool -> str -> captures -> option A) (v : A),
    run r b s c k = Some v ->
    exists b' l t c', s = l ++ t /\ k b' t c' = Some v.
Proof.
  revert A.
  induction r as [|p|r1 IH1 r2 IH2|r1 IH1 r2 IH2|p|n r IH|r IH| |];
    intros A b s c k v H; simpl in H.
  - exists b, [], s, c. split; [reflexivity|exact H].
  - destruct s as [|x t]; [discriminate|]. destruct (p x); [|discriminate].
    exists false, [x], t, c. split; [reflexivity|exact H].
  - apply IH1 in H as (b1 & l1 & t1 & c1 & -> & H).
    apply IH2 in H as (b2 & l2 & t2 & c2 & -> & H).
    exists b2, (l1 ++ l2), t2, c2. split; [apply app_assoc|exact H].
  - destruct (run r1 b s c k) as [w|] eqn:E.
    + injection H as <-. apply IH1 in E. exact E.
    + apply IH2 in H. exact H.
  - apply star_suffix in H as (b' & l & t & -> & H).
    exists b', l, t, c. split; [reflexivity|exact H].
  - apply IH in H as (b' & l & t & c' & -> & H).
    eexists b', l, t, _. split; [reflexivity|exact H].
  - destruct (run r b s c (fun _ _ _ => Some tt)); [discriminate|].
    exists b, [], s, c. split; [reflexivity|exact H].
  - destruct b; [|discriminate].
    exists true, [], s, c. split; [reflexivity|exact H].
  - destruct s; [|discriminate].
    exists b, [], [], c. split; [reflexivity|exact H].
Qed.

Lemma matchAt_suffix (r : re) (b : bool) (s s' : str) (c : captures) :
  matchAt r b s = Some (s', c) -> exists l, s = l ++ s'.
Proof.
  unfold matchAt. intros H.
  apply run_suffix in H as (b' & l & t & c' & -> & [= <- <-]).
  exists l. reflexivity.
Qed.

(** A match is a piece of the string: the text before it, the match
    and the text after it make up the string. *)
Lemma search_parts (r : re) (s : str) :
  forall b m,
    search r b s = Some m -> s = before m ++ whole m ++ after m.
Proof.
  induction s as [|x s IH]; intros b m H; simpl in H.
  - destruct (matchAt r b []) as [[s' c]|] eqn:E; [|discriminate].
    injection H as <-. simpl.
    apply matchAt_suffix in E as [l E]. symmetry in E.
    apply app_eq_nil in E as [-> ->]. reflexivity.
  - destruct (matchAt r b (x :: s)) as [[s' c]|] eqn:E.
    + injection H as <-. cbn [before whole after app].
      apply matchAt_suffix in E as [l E].
      change (S (length s)) with (length (x :: s)).
      rewrite E, length_app, Nat.add_sub, take_app_length. reflexivity.
    + destruct (search r false s) as [m'|] eqn:E'; [|discriminate].
      injection H as <-. cbn [shiftRight before whole after app].
      rewrite <- (IH false m' E'). reflexivity.
Qed.

(** Replacing a match by nothing only takes units away. *)
Lemma replace_nothing_sublist (r : re) (s : str) : sublist (replace r [] s) s.
Proof.
  unfold replace, exec. destruct (search r true s) as [m|] eqn:E; [|reflexivity].
  rewrite (search_parts r s true m E) at 1. cbn [app].
  apply sublist_app; [reflexivity|]. apply sublist_inserts_l. reflexivity.
Qed.

Lemma replace_nothing_elem (r : re) (s : str) (x : N) :
  x ∈ replace r [] s -> x ∈ s.
Proof. intros H. exact (elem_of_sublist _ _ x H (replace_nothing_sublist r s)). Qed.

(** ** Flags and links *)

Lemma stripFlag_skip (s : str) : stripFlag s = skipUnits (N.eqb (ch "-")) s.
Proof.
  unfold stripFlag, replace, exec, reHyphens. rewrite search_bol.
  unfold matchAt. cbn [run Plus].
  destruct s as [|x s]; [reflexivity|].
  cbn [skipUnits]. destruct (ch "-" =? x)%N; [|reflexivity].
  rewrite (star_final (N.eqb (ch "-")) (fun s' => (s', @nil (nat * list N)))).
  reflexivity.
Qed.

Lemma skipUnits_app (p : N -> bool) (l t : str) :
  Forall (fun x => p x = true) l ->
  match t with [] => True | x :: _ => p x = false end ->
  skipUnits p (l ++ t) = t.
Proof.
  intros Hl Ht. induction Hl as [|x l Hx _ IH]; simpl.
  - destruct t as [|y t]; [reflexivity|]. simpl. rewrite Ht. reflexivity.
  - rewrite Hx. exact IH.
Qed.

Lemma skipUnits_head (p : N -> bool) (s : str) :
  match skipUnits p s with [] => True | x :: _ => p x = false end.
Proof.
  induction s as [|x s IH]; simpl; [exact I|].
  destruct (p x) eqn:E; [exact IH|exact E].
Qed.

Lemma skipUnits_idem (p : N -> bool) (s : str) :
  skipUnits p (skipUnits p s) = skipUnits p s.
Proof.
  induction s as [|x s IH]; simpl; [reflexivity|].
  destruct (p x) eqn:E; [exact IH|]. simpl. rewrite E. reflexivity.
Qed.

(** X1. [isFlag] holds exactly of the strings that begin with a
    hyphen, [isLongFlag] exactly of those that begin with two, and
    [isShortFlag] of those that begin with one hyphen and go on with
    anything else or nothing. *)
Theorem flag_recognizers_by_prefix (s : str) :
  (isFlag s = true <-> exists t, s = ch "-" :: t)
  /\ (isLongFlag s = true <-> exists t, s = ch "-" :: ch "-" :: t)
  /\ (isShortFlag s = true
      <-> s = [ch "-"] \/ exists x t, s = ch "-" :: x :: t /\ x <> ch "-").
Proof.
  unfold isLongFlag, isShortFlag.
  destruct s as [|c s].
  - split; [|split]; (split; [discriminate|]).
    + intros [t H]. discriminate H.
    + intros [t H]. discriminate H.
    + intros [H|(x & t & H & _)]; discriminate H.
  - rewrite isFlag_cons.
    assert (forall y r, bool_decide (Js.codePointAt (c :: y :: r) 1 = Some (ch "-"))
                        = bool_decide (y = ch "-")) as Hsnd.
    { intros y r. apply bool_decide_ext. rewrite codePointAt_hyphen. simpl.
      split; congruence. }
    destruct (decide (c = ch "-")) as [->|Hc].
    + rewrite bool_decide_true by reflexivity. split; [|split].
      * split; [|reflexivity]. intros _. exists s. reflexivity.
      * destruct s as [|y r]; [split; [discriminate|intros [t H]; discriminate H]|].
        rewrite Hsnd. simpl. rewrite bool_decide_eq_true. split.
        -- intros ->. exists r. reflexivity.
        -- intros [t [= -> _]]. reflexivity.
      * destruct s as [|y r].
        -- split; [intros _; left; reflexivity|reflexivity].
        -- rewrite Hsnd. simpl. rewrite negb_true_iff, bool_decide_eq_false. split.
           ++ intros Hy. right. exists y, r. split; [reflexivity|exact Hy].
           ++ intros [H|(x & t & [= -> ->] & Hx)]; [discriminate H|exact Hx].
    + rewrite bool_decide_false by exact Hc. split; [|split]; (split; [discriminate|]).
      * intros [t [= H _]]. contradiction.
      * intros [t [= H _]]. contradiction.
      * intros [[= H _]|(x & t & [= H _] & _)]; contradiction.
Qed.

(** X2. [stripFlag] takes off the whole run of hyphens at the front of
    a string, however long, and nothing else. *)
Theorem stripFlag_leading_hyphens (n : nat) (t : str) :
  match t with [] => True | x :: _ => x <> ch "-" end ->
  stripFlag (replicate n (ch "-") ++ t) = t.
Proof.
  intros Ht. rewrite stripFlag_skip. apply skipUnits_app.
  - apply Forall_replicate. apply N.eqb_refl.
  - destruct t as [|x t]; [exact I|]. apply N.eqb_neq. congruence.
Qed.

Lemma stripFlag_leading_hyphens_witness :
  stripFlag (replicate 2 (ch "-") ++ u "dry-run") = u "dry-run".
Proof.
  apply (stripFlag_leading_hyphens 2 (u "dry-run")). discriminate.
Defined.

(** X3. What [stripFlag] gives is never a flag, so stripping twice
    changes nothing more; and a string that is no flag is given back as
    it is. *)
Theorem stripFlag_not_flag (s : str) :
  isFlag (stripFlag s) = false
  /\ stripFlag (stripFlag s) = stripFlag s
  /\ (isFlag s = false -> stripFlag s = s).
Proof.
  rewrite !stripFlag_skip. split; [|split].
  - pose proof (skipUnits_head (N.eqb (ch "-")) s) as H.
    destruct (skipUnits (N.eqb (ch "-")) s) as [|x t]; [reflexivity|].
    rewrite isFlag_cons. apply bool_decide_eq_false. intros ->.
    rewrite N.eqb_refl in H. discriminate H.
  - apply skipUnits_idem.
  - destruct s as [|x t]; [reflexivity|]. rewrite isFlag_cons. simpl.
    intros H. apply bool_decide_eq_false in H.
    destruct (N.eqb_spec (ch "-") x) as [E|_]; [congruence|reflexivity].
Qed.

Lemma stripFlag_not_flag_witness : stripFlag (u "install") = u "install".
Proof.
  apply (proj2 (proj2 (stripFlag_not_flag (u "install")))). reflexivity.
Defined.

Lemma isPrefix_spec (p s : str) :
  Js.isPrefix p s = true <-> exists t, s = p ++ t.
Proof.
  revert s. induction p as [|a p IH]; intros s; simpl.
  - split; [intros _; exists s; reflexivity|reflexivity].
  - destruct s as [|b s].
    + split; [discriminate|]. intros [t H]. discriminate H.
    + rewrite andb_true_iff, N.eqb_eq, IH. split.
      * intros [-> [t ->]]. exists t. reflexivity.
      * intros [t [= -> ->]]. split; [reflexivity|]. exists t. reflexivity.
Qed.

Lemma isLink_prefixes (text : str) :
  isLink text
  = Js.isPrefix (u "http://") text || Js.isPrefix (u "https://") text
    || Js.isPrefix (u "ftp://") text.
Proof.
  unfold isLink, test, exec, reLink. rewrite search_bol. unfold matchAt.
  destruct text as [|x0 [|x1 [|x2 [|x3 [|x4 [|x5 [|x6 [|x7 text]]]]]]]];
    cbv -[N.eqb];
    repeat match goal with
           | |- context [N.eqb ?a ?b] =>
               destruct (N.eqb_spec a b) as [?|?];
               try subst; try congruence; cbv -[N.eqb]
           end;
    reflexivity.
Qed.

(** X4. [isLink] holds exactly of the texts that begin with [http://],
    [https://] or [ftp://]; the scheme has to stand at the very start
    and in lower case. *)
Theorem isLink_scheme_at_start (text : str) :
  isLink text = true
  <-> exists t,
        text = u "http://" ++ t \/ text = u "https://" ++ t
        \/ text = u "ftp://" ++ t.
Proof.
  rewrite isLink_prefixes, !orb_true_iff, !isPrefix_spec. split.
  - intros [[[t H]|[t H]]|[t H]]; exists t; tauto.
  - intros [t [H|[H|H]]]; [left; left|left; right|right]; exists t; exact H.
Qed.

(** ** The name cleaner, continued *)

Lemma replace_reSigil (s : str) : replace reSigil [] s = stripSigil s.
Proof.
  unfold replace, exec, reSigil. rewrite search_bol. unfold matchAt.
  destruct s as [|x [|y [|z t]]];
    cbv -[N.eqb];
    repeat match goal with
           | |- context [N.eqb ?a ?b] =>
               destruct (N.eqb_spec a b) as [?|?];
               try subst; try congruence; cbv -[N.eqb]
           end;
    try reflexivity; try congruence.
Qed.

Lemma replaceAllFrom_none (r : re) (f : str -> str) (s : str) :
  forall b,
    (forall l t b', s = l ++ t -> matchAt r b' t = None) ->
    replaceAllFrom r f b 0 s = s.
Proof.
  induction s as [|x s IH]; intros b H; simpl.
  - rewrite (H [] [] b eq_refl). reflexivity.
  - rewrite (H [] (x :: s) b eq_refl). rewrite IH; [reflexivity|].
    intros l t b' ->. apply (H (x :: l) t b'). reflexivity.
Qed.

Lemma replace_reBracketed_plain (f : str -> str) (s : str) :
  ch "[" ∉ s -> replaceAllWith reBracketed f s = s.
Proof.
  intros Hs. unfold replaceAllWith. apply replaceAllFrom_none.
  intros l [|x t] b' ->; [reflexivity|].
  unfold matchAt, reBracketed. cbn [run lit].
  destruct (N.eqb_spec (ch "[") x) as [<-|_]; [|reflexivity].
  exfalso. apply Hs. apply elem_of_app. right. left.
Qed.

Lemma replaceStr_absent (a : N) (repl s : str) :
  a ∉ s -> Js.replaceStr [a] repl s = s.
Proof.
  induction s as [|x s IH]; intros Ha; simpl; [reflexivity|].
  destruct (N.eqb_spec a x) as [->|_].
  - exfalso. apply Ha. left.
  - simpl. rewrite IH; [reflexivity|]. intros H. apply Ha. right. exact H.
Qed.

(** [/\|.+$/] cuts the string at its first bar, when something follows
    the bar and no line terminator does. *)
Lemma replace_reTypeSuffix_cut (pre ty : str) :
  ch "|" ∉ pre -> ty <> [] -> Forall (fun x => dot x = true) ty ->
  replace reTypeSuffix [] (pre ++ ch "|" :: ty) = pre.
Proof.
  intros Hpre Hne Hty. unfold replace, exec, reTypeSuffix.
  rewrite search_lit_skip by exact Hpre.
  destruct ty as [|y ty]; [contradiction|].
  inversion Hty as [|? ? Hy Hty']; subst.
  cbn [search]. unfold matchAt at 1. cbn [run lit Plus].
  rewrite N.eqb_refl, Hy.
  match goal with
  | |- context [star dot ?K false ty] =>
      assert (star dot K false ty = Some ([], [])) as E
  end.
  { rewrite <- (app_nil_r ty) at 1. apply star_app; [exact Hty'|].
    destruct ty; reflexivity. }
  rewrite E. cbn [option_map shiftBy before after app].
  rewrite !app_nil_r. reflexivity.
Qed.

(** [trim] leaves nothing to trim. *)
Lemma trimStart_head (s : str) :
  match Js.trimStart s with
  | [] => True
  | x :: _ => Js.isWhiteSpace x = false
  end.
Proof.
  induction s as [|x s IH]; simpl; [exact I|].
  destruct (Js.isWhiteSpace x) eqn:E; [exact IH|exact E].
Qed.

Lemma trimStart_fixed (s : str) :
  match s with [] => True | x :: _ => Js.isWhiteSpace x = false end ->
  Js.trimStart s = s.
Proof. destruct s as [|x s]; [reflexivity|]. simpl. intros ->. reflexivity. Qed.

Lemma trimStart_idem (s : str) : Js.trimStart (Js.trimStart s) = Js.trimStart s.
Proof. apply trimStart_fixed, trimStart_head. Qed.

Lemma trimStart_snoc (s : str) (x : N) :
  Js.isWhiteSpace x = false ->
  Js.trimStart (s ++ [x]) = Js.trimStart s ++ [x].
Proof.
  intros Hx. induction s as [|y s IH]; simpl.
  - rewrite Hx. reflexivity.
  - destruct (Js.isWhiteSpace y); [exact IH|reflexivity].
Qed.

Lemma trim_idem (s : str) : Js.trim (Js.trim s) = Js.trim s.
Proof.
  unfold Js.trim, Js.trimEnd.
  set (t := Js.trimStart s).
  pose proof (trimStart_head s) as Hhead. fold t in Hhead.
  pose proof (trimStart_head (rev t)) as Hlast.
  destruct (Js.trimStart (rev t)) as [|z w] eqn:E; [reflexivity|].
  assert (Js.trimStart (rev (z :: w)) = rev (z :: w)) as E1.
  { apply trimStart_fixed.
    (* the head of [rev (z :: w)] is the head of [t] *)
    assert (exists l, rev t = l ++ z :: w) as [l Hl].
    { clear -E. induction (rev t) as [|y r IH]; simpl in E; [discriminate|].
      destruct (Js.isWhiteSpace y).
      - destruct (IH E) as [l ->]. exists (y :: l). reflexivity.
      - exists []. exact E. }
    apply (f_equal (@rev N)) in Hl. rewrite rev_involutive, rev_app_distr in Hl.
    rewrite Hl in Hhead.
    destruct (rev (z :: w)) as [|a r]; [exact I|exact Hhead]. }
  rewrite E1, rev_involutive. simpl. rewrite Hlast. reflexivity.
Qed.

Lemma cleanArg_stages_plain (s : str) :
  ch "<" ∉ s -> ch "[" ∉ s -> ch "|" ∉ s -> ch "#" ∉ s ->
  cleanArg s = Js.trim (stripSigil s).
Proof.
  intros Hlt Hbr Hbar Hhash. unfold cleanArg.
  rewrite replace_reHint_plain by exact Hlt.
  rewrite replace_reBracketed_plain by exact Hbr.
  unfold reTypeSuffix. rewrite replace_no_literal by exact Hbar.
  change (u "#") with [ch "#"]. rewrite replaceStr_absent by exact Hhash.
  rewrite replace_reSigil. reflexivity.
Qed.

(** X5. The name [cleanArg] gives has no white space left at either
    end: trimming it again changes nothing. *)
Theorem cleanArg_trimmed (val : str) : Js.trim (cleanArg val) = cleanArg val.
Proof. unfold cleanArg. apply trim_idem. Qed.

(** X6. On a definition without hint, group, type separator or [#],
    [cleanArg] takes off one leading sigil ([!], [-] or three dots) and
    the white space around what is left, nothing else; a second sigil
    stays in the name. *)
Theorem cleanArg_plain_name (s : str) :
  plainName s -> cleanArg s = Js.trim (stripSigil s).
Proof. intros (H1 & H2 & H3 & H4). apply cleanArg_stages_plain; assumption. Qed.

Lemma cleanArg_plain_name_witness : cleanArg (u "!-dry-run ") = u "-dry-run".
Proof.
  apply (cleanArg_plain_name (u "!-dry-run ")).
  repeat split; compute_done.
Defined.

(** X7. A type behind the first bar is cut off with the bar, whatever
    the type holds, other bars included: the name is the one of the
    text before the bar. *)
Theorem cleanArg_type_suffix (pre ty : str) :
  plainName pre -> ch "<" ∉ ty -> ch "[" ∉ ty -> ty <> [] ->
  Forall (fun x => dot x = true) ty ->
  cleanArg (pre ++ ch "|" :: ty) = Js.trim (stripSigil pre).
Proof.
  intros (H1 & H2 & H3 & H4) Hlt Hbr Hne Hdot. unfold cleanArg.
  rewrite replace_reHint_plain.
  2:{ rewrite elem_of_app, elem_of_cons. intros [H|[H|H]];
        [contradiction|discriminate H|contradiction]. }
  rewrite replace_reBracketed_plain.
  2:{ rewrite elem_of_app, elem_of_cons. intros [H|[H|H]];
        [contradiction|discriminate H|contradiction]. }
  rewrite replace_reTypeSuffix_cut by assumption.
  change (u "#") with [ch "#"]. rewrite replaceStr_absent by exact H4.
  rewrite replace_reSigil. reflexivity.
Qed.

Lemma cleanArg_type_suffix_witness :
  cleanArg (u "...files " ++ ch "|" :: u " array|x") = u "files".
Proof.
  apply (cleanArg_type_suffix (u "...files ") (u " array|x")).
  - repeat split; compute_done.
  - compute_done.
  - compute_done.
  - discriminate.
  - repeat constructor.
Defined.

(** X8. A hint is taken out before anything else is looked at: with a
    hint between [<] and [>] on one line, bars and all, the name is the
    one of the definition without the hint. *)
Theorem cleanArg_ignores_hint (pre hint post : str) :
  ch "<" ∉ pre -> ch "<" ∉ post -> ch ">" ∉ post ->
  Forall (fun x => dot x = true) hint ->
  cleanArg (pre ++ ch "<" :: hint ++ ch ">" :: post) = cleanArg (pre ++ post).
Proof.
  intros Hpre Hpost Hgt Hdot. unfold cleanArg.
  rewrite replace_reHint_removes by assumption.
  rewrite (replace_reHint_plain (pre ++ post)); [reflexivity|].
  rewrite elem_of_app. tauto.
Qed.

Lemma cleanArg_ignores_hint_witness :
  cleanArg (u "!mean " ++ ch "<" :: u "a|b" ++ ch ">" :: u " | boolean")
  = cleanArg (u "!mean " ++ u " | boolean").
Proof.
  apply (cleanArg_ignores_hint (u "!mean ") (u "a|b") (u " | boolean")).
  - compute_done.
  - compute_done.
  - compute_done.
  - repeat constructor.
Defined.

(** X9. For a plain name the sigil decides the type and goes away:
    [!name] is a boolean, [-name] a number, [...name] an array, each
    named by the trimmed name.  One dot alone also gives an array, but
    then the dot stays in the name. *)
Theorem parseType_plain_name (n : str) :
  plainName n ->
  parseType (ch "!" :: n) = (boolean, Js.trim n)
  /\ parseType (ch "-" :: n) = (number, Js.trim n)
  /\ parseType (u "..." ++ n) = (array, Js.trim n)
  /\ (match n with [] => True | x :: _ => x <> ch "." end ->
      parseType (ch "." :: n) = (array, Js.trim (ch "." :: n))).
Proof.
  intros (H1 & H2 & H3 & H4).
  assert (forall c, c <> ch "<" -> c <> ch "[" -> c <> ch "|" -> c <> ch "#" ->
                    plainName (c :: n)) as Hcons.
  { intros c ? ? ? ?. unfold plainName. rewrite !elem_of_cons.
    repeat split; intros [E|E]; try contradiction; symmetry in E; contradiction. }
  assert (forall s, plainName s ->
            parseType s
            = (match s with
               | [] => string_
               | c :: _ =>
                   if (c =? ch "-")%N then number
                   else if (c =? ch "!")%N then boolean
                   else if (c =? ch ".")%N then array else string_
               end, Js.trim (stripSigil s))) as Hpt.
  { intros s Hs. unfold parseType.
    rewrite (cleanArg_stages_plain s) by apply Hs.
    rewrite replace_reHint_plain by apply Hs.
    destruct s; reflexivity. }
  split; [|split; [|split]].
  - rewrite Hpt by (apply Hcons; discriminate). reflexivity.
  - rewrite Hpt by (apply Hcons; discriminate). reflexivity.
  - change (u "..." ++ n) with (ch "." :: ch "." :: ch "." :: n).
    rewrite Hpt; [reflexivity|].
    unfold plainName. rewrite !elem_of_cons.
    repeat split; intros [E|[E|[E|E]]]; try contradiction; discriminate E.
  - intros Hn. rewrite Hpt by (apply Hcons; discriminate).
    f_equal. f_equal. cbn [stripSigil].
    change (ch "." =? ch "!")%N with false. rewrite N.eqb_refl. cbv iota.
    destruct n as [|y [|z t]]; try reflexivity.
    destruct (N.eqb_spec y (ch ".")) as [->|_]; [contradiction|reflexivity].
Qed.

Lemma parseType_plain_name_witness :
  parseType (ch "." :: u "env") = (array, u ".env").
Proof.
  assert (plainName (u "env")) as P by (repeat split; compute_done).
  apply (proj2 (proj2 (proj2 (parseType_plain_name (u "env") P)))).
  discriminate.
Defined.

(** ** Segments and entries, continued *)

Lemma cutAtCommas_no_comma (s : str) :
  forall cur, ch "," ∉ s -> cutAtCommas cur s = [rev cur ++ s].
Proof.
  induction s as [|x s IH]; intros cur Hs; simpl.
  - rewrite app_nil_r. reflexivity.
  - destruct (N.eqb_spec x (ch ",")) as [->|_].
    + exfalso. apply Hs. left.
    + simpl. rewrite IH by (intros H; apply Hs; right; exact H).
      simpl. rewrite <- app_assoc. reflexivity.
Qed.

(** X10. Every segment [splitFlag] gives is trimmed, and a flags
    string that has no comma left once its first [[...]] group is taken
    out gives one segment: what is left of the string, trimmed. *)
Theorem splitFlag_segments_trimmed (val : str) :
  (forall seg, seg ∈ splitFlag val -> Js.trim seg = seg)
  /\ (ch "," ∉ replace reGroup [] val ->
      splitFlag val = [Js.trim (replace reGroup [] val)]).
Proof.
  split.
  - unfold splitFlag. intros seg Hseg.
    apply list_elem_of_fmap in Hseg as (f & -> & _). apply trim_idem.
  - intros Hc. rewrite splitFlag_cut, cutAtCommas_no_comma; [reflexivity|].
    exact Hc.
Qed.

Lemma splitFlag_segments_trimmed_witness :
  splitFlag (u " install [pkg, files] ") = [u "install"].
Proof.
  apply (proj2 (splitFlag_segments_trimmed (u " install [pkg, files] "))).
  compute_done.
Defined.

Lemma splitFlag_no_comma (val : str) :
  ch "," ∉ val -> splitFlag val = [Js.trim (replace reGroup [] val)].
Proof.
  intros Hc. rewrite splitFlag_cut, cutAtCommas_no_comma; [reflexivity|].
  intros H. apply Hc. exact (replace_nothing_elem _ _ _ H).
Qed.

Lemma endsWith_unit (s : str) (c : N) :
  Js.endsWith s [c] = true -> s = Js.slice s 0 (-1) ++ [c].
Proof.
  unfold Js.endsWith, Js.slice, Js.relIndex. intros H.
  apply bool_decide_eq_true in H. simpl length in *.
  change (0 <? 0)%Z with false. change (-1 <? 0)%Z with true. cbv iota.
  destruct s as [|x s] using rev_ind; [discriminate H|]. clear IHs.
  rewrite length_app in *. simpl length in *.
  replace (length s + 1 - 1) with (length s) in H by lia.
  rewrite drop_app_length in H. injection H as ->.
  replace (Nat.min (Z.to_nat 0) (length s + 1)) with 0 by lia.
  replace (Z.to_nat (Z.max (Z.of_nat (length s + 1) + -1) 0) - 0)
    with (length s) by lia.
  rewrite drop_0, take_app_length. reflexivity.
Qed.

Section ArgsHandleMore.

Variable stripAnsi : str -> str.
Variable D : Type.
Implicit Types (a : Arg D) (o : CmdOptions D).

Ltac open_register a seg :=
  unfold registerCanonical;
  destruct (defaultValue a), (Js.endsWith (snd (parseType seg)) (u "!"));
  unfold pushBucket;
  destruct (fst (parseType seg)); cbn;
  match goal with
  | |- context [match ?x with Some _ => _ | None => _ end] => destruct x
  end; reflexivity.

Lemma required_registerCanonical a (al : list str) (seg : str) o :
  o_required (registerCanonical a al seg o)
  = if Js.endsWith (snd (parseType seg)) (u "!")
    then o_required o ++ [Js.slice (snd (parseType seg)) 0 (-1)]
    else o_required o.
Proof. open_register a seg. Qed.

Lemma description_registerCanonical a (al : list str) (seg : str) o :
  o_description (registerCanonical a al seg o)
  = objSet (if Js.endsWith (snd (parseType seg)) (u "!")
            then Js.slice (snd (parseType seg)) 0 (-1)
            else snd (parseType seg)) (default [] (description a))
      (o_description o).
Proof. open_register a seg. Qed.

Lemma hints_registerCanonical a (al : list str) (seg : str) o :
  o_hints (registerCanonical a al seg o)
  = objSet (if Js.endsWith (snd (parseType seg)) (u "!")
            then Js.slice (snd (parseType seg)) 0 (-1)
            else snd (parseType seg)) (parseByChar seg defaultSymbols)
      (o_hints o).
Proof. open_register a seg. Qed.

Lemma argsHandle_required a o :
  o_required (argsHandle stripAnsi a o)
  = if markedRequired stripAnsi (flags a)
    then o_required o ++ [canonicalName stripAnsi (flags a)]
    else o_required o.
Proof.
  rewrite argsHandle_register, required_registerCanonical.
  unfold markedRequired, canonicalName.
  destruct (Js.endsWith _ _); reflexivity.
Qed.

Lemma argsHandle_description a o :
  o_description (argsHandle stripAnsi a o)
  = objSet (canonicalName stripAnsi (flags a)) (default [] (description a))
      (o_description o).
Proof. rewrite argsHandle_register. apply description_registerCanonical. Qed.

Lemma argsHandle_hints a o :
  o_hints (argsHandle stripAnsi a o)
  = objSet (canonicalName stripAnsi (flags a))
      (parseByChar (canonicalSegment stripAnsi (flags a)) defaultSymbols)
      (o_hints o).
Proof. rewrite argsHandle_register. apply hints_registerCanonical. Qed.

Lemma argsHandle_alias a o :
  o_alias (argsHandle stripAnsi a o)
  = Some (objSet (canonicalName stripAnsi (flags a))
            (aliasNames stripAnsi (flags a)) (default ∅ (o_alias o))).
Proof. rewrite argsHandle_register. apply alias_registerCanonical. Qed.

Lemma argsHandle_default a o :
  o_default (argsHandle stripAnsi a o)
  = match defaultValue a with
    | Some d =>
        Some (objSet (canonicalName stripAnsi (flags a)) d
                (default ∅ (o_default o)))
    | None => o_default o
    end.
Proof. rewrite argsHandle_register. apply default_registerCanonical. Qed.

(** X11. An entry is required exactly when its cleaned canonical
    segment ends with [!]: then the name is registered without that
    mark and pushed at the end of [required]; otherwise the name is the
    cleaned segment and [required] stays as it was. *)
Theorem argsHandle_required_mark a o :
  let cleaned := cleanArg (canonicalSegment stripAnsi (flags a)) in
  let canonical := canonicalName stripAnsi (flags a) in
  (Js.endsWith cleaned (u "!") = true ->
   cleaned = canonical ++ u "!"
   /\ o_required (argsHandle stripAnsi a o) = o_required o ++ [canonical])
  /\ (Js.endsWith cleaned (u "!") = false ->
      cleaned = canonical
      /\ o_required (argsHandle stripAnsi a o) = o_required o).
Proof.
  intros cleaned canonical. subst cleaned canonical.
  rewrite argsHandle_required. unfold markedRequired, canonicalName.
  rewrite parseType_name. split; intros H; rewrite H.
  - split; [|reflexivity]. apply endsWith_unit. exact H.
  - split; reflexivity.
Qed.

(** X12. Under a canonical name other than [__proto__] [argsHandle]
    files the description of the entry, the empty string when there is
    none, and the hint of the canonical segment, the empty string when
    it has none.  Under the canonical name [__proto__] nothing is
    filed: the entries of [description] and of [hints] stay as they
    were. *)
Theorem argsHandle_description_and_hint a o :
  let canonical := canonicalName stripAnsi (flags a) in
  let o' := argsHandle stripAnsi a o in
  (canonical <> u "__proto__" ->
   o_description o' !! canonical = Some (default [] (description a))
   /\ o_hints o' !! canonical
      = Some (parseByChar (canonicalSegment stripAnsi (flags a)) defaultSymbols)
   /\ (ch "<" ∉ canonicalSegment stripAnsi (flags a) ->
       o_hints o' !! canonical = Some []))
  /\ (canonical = u "__proto__" ->
      o_description o' = o_description o /\ o_hints o' = o_hints o).
Proof.
  intros canonical o'. subst canonical o'.
  rewrite argsHandle_description, argsHandle_hints. split.
  - intros Hp. rewrite !lookup_objSet_eq by exact Hp.
    split; [reflexivity|]. split; [reflexivity|].
    intros Hlt. f_equal. unfold parseByChar, exec.
    rewrite search_none; [reflexivity|].
    intros l [|x t] b' E; [reflexivity|].
    apply matchAt_lit_other. intros ->. apply Hlt. rewrite E.
    apply elem_of_app. right. left.
  - intros Hp. rewrite !objSet_proto by exact Hp. split; reflexivity.
Qed.

(** X13. [argsHandle] touches one name only: under every other name
    the aliases, the default, the description and the hint are what
    they were. *)
Theorem argsHandle_other_names a o (n : str) :
  n <> canonicalName stripAnsi (flags a) ->
  let o' := argsHandle stripAnsi a o in
  default ∅ (o_alias o') !! n = default ∅ (o_alias o) !! n
  /\ default ∅ (o_default o') !! n = default ∅ (o_default o) !! n
  /\ o_description o' !! n = o_description o !! n
  /\ o_hints o' !! n = o_hints o !! n.
Proof.
  intros Hn o'. subst o'.
  rewrite argsHandle_alias, argsHandle_default, argsHandle_description,
    argsHandle_hints.
  repeat split; try (simpl; apply lookup_objSet_ne; congruence).
  destruct (defaultValue a); [|reflexivity].
  simpl. apply lookup_objSet_ne. congruence.
Qed.

End ArgsHandleMore.

Lemma argsHandle_required_mark_witness :
  o_required
    (argsHandle plainText (mkArg (u "p, pkg!") None (None : option bool))
       emptyOptions)
  = [u "pkg"].
Proof.
  apply (proj1 (argsHandle_required_mark plainText bool
                  (mkArg (u "p, pkg!") None None) emptyOptions)).
  reflexivity.
Defined.

Lemma argsHandle_description_and_hint_witness :
  o_hints
    (argsHandle plainText (mkArg (u "p, pkg!") None (None : option bool))
       emptyOptions)
  !! canonicalName plainText (u "p, pkg!") = Some []
  /\ o_hints
       (argsHandle plainText
          (mkArg (u "p, __proto__ <x>") None (None : option bool))
          emptyOptions)
     = ∅.
Proof.
  split.
  - apply (proj1 (argsHandle_description_and_hint plainText bool
                    (mkArg (u "p, pkg!") None None) emptyOptions)).
    + vm_compute. discriminate.
    + compute_done.
  - apply (proj2 (argsHandle_description_and_hint plainText bool
                    (mkArg (u "p, __proto__ <x>") None None) emptyOptions)).
    vm_compute. reflexivity.
Defined.

Lemma argsHandle_other_names_witness :
  o_description
    (argsHandle plainText (mkArg (u "p, pkg!") None (None : option bool))
       emptyOptions) !! u "files"
  = o_description (emptyOptions (D := bool)) !! u "files".
Proof.
  apply (argsHandle_other_names plainText bool
           (mkArg (u "p, pkg!") None None) emptyOptions (u "files")).
  discriminate.
Defined.

(** ** The schema as a whole, continued *)

Section SchemaMore.

Variable stripAnsi : str -> str.
Variable D : Type.
Implicit Types (a : Arg D) (o : CmdOptions D) (args : list (Arg D)).

Lemma bucketNames_parseCliArgs args (type : OptionalType) :
  bucketNames type (parseCliArgs stripAnsi args)
  = map (fun a => canonicalName stripAnsi (flags a))
      (filter (fun a => canonicalType stripAnsi (flags a) = type) args).
Proof.
  induction args as [|a args IH] using rev_ind; [destruct type; reflexivity|].
  rewrite parseCliArgs_snoc, bucketNames_argsHandle, IH, filter_app, map_app.
  rewrite filter_cons, filter_nil.
  destruct (decide (type = canonicalType stripAnsi (flags a))) as [->|Hne].
  - rewrite decide_True by reflexivity. reflexivity.
  - rewrite decide_False by congruence. rewrite app_nil_r. reflexivity.
Qed.

Lemma required_parseCliArgs args :
  o_required (parseCliArgs stripAnsi args)
  = map (fun a => canonicalName stripAnsi (flags a))
      (filter (fun a => markedRequired stripAnsi (flags a) = true) args).
Proof.
  induction args as [|a args IH] using rev_ind; [reflexivity|].
  rewrite parseCliArgs_snoc, argsHandle_required, IH, filter_app, map_app.
  rewrite filter_cons, filter_nil.
  destruct (markedRequired stripAnsi (flags a)) eqn:E.
  - rewrite decide_True by reflexivity. reflexivity.
  - rewrite decide_False by discriminate. rewrite app_nil_r. reflexivity.
Qed.

Lemma names_parseCliArgs args (n : str) :
  n ∈ allNames (parseCliArgs stripAnsi args)
  <-> exists a, a ∈ args /\ canonicalName stripAnsi (flags a) = n.
Proof.
  rewrite allNames_parseCliArgs, list_elem_of_fmap. split.
  - intros (a & -> & Ha). exists a. split; [exact Ha|reflexivity].
  - intros (a & Ha & <-). exists a. split; [reflexivity|exact Ha].
Qed.

(** What the last entry with a given name files is what the schema
    holds. *)
Lemma parseCliArgs_last_wins args :
  forall pre a post,
    args = pre ++ a :: post ->
    canonicalName stripAnsi (flags a) <> protoKey ->
    (forall a', a' ∈ post ->
                canonicalName stripAnsi (flags a')
                <> canonicalName stripAnsi (flags a)) ->
    let o := parseCliArgs stripAnsi args in
    default ∅ (o_alias o) !! canonicalName stripAnsi (flags a)
    = Some (aliasNames stripAnsi (flags a))
    /\ o_description o !! canonicalName stripAnsi (flags a)
       = Some (default [] (description a))
    /\ o_hints o !! canonicalName stripAnsi (flags a)
       = Some (parseByChar (canonicalSegment stripAnsi (flags a)) defaultSymbols).
Proof.
  intros pre a post. revert args.
  induction post as [|z post IH] using rev_ind;
    intros args -> Hp Hpost o; subst o.
  - rewrite parseCliArgs_snoc, argsHandle_alias, argsHandle_description,
      argsHandle_hints. simpl. rewrite !lookup_objSet_eq by exact Hp.
    repeat split.
  - assert (canonicalName stripAnsi (flags a)
            <> canonicalName stripAnsi (flags z)) as Hz.
    { intros E. apply (Hpost z); [|symmetry; exact E].
      apply elem_of_app. right. left. }
    replace (pre ++ a :: post ++ [z]) with ((pre ++ a :: post) ++ [z])
      by (rewrite <- app_assoc; reflexivity).
    rewrite parseCliArgs_snoc, argsHandle_alias, argsHandle_description,
      argsHandle_hints. simpl. rewrite !lookup_objSet_ne by exact Hz.
    apply (IH (pre ++ a :: post) eq_refl Hp).
    intros a' Ha'. apply Hpost. apply elem_of_app. left. exact Ha'.
Qed.

Lemma parseCliArgs_domains args (n : str) :
  let o := parseCliArgs stripAnsi args in
  (is_Some (default ∅ (o_alias o) !! n) <-> n ∈ allNames o /\ n <> protoKey)
  /\ (is_Some (o_description o !! n) <-> n ∈ allNames o /\ n <> protoKey)
  /\ (is_Some (o_hints o !! n) <-> n ∈ allNames o /\ n <> protoKey).
Proof.
  intros o. subst o.
  induction args as [|a args IH] using rev_ind.
  - simpl. rewrite !lookup_empty. unfold allNames. simpl.
    split_and!; (split; [intros [? ?]; discriminate|intros [H' _]; inversion H']).
  - destruct IH as (IH1 & IH2 & IH3).
    rewrite parseCliArgs_snoc, argsHandle_alias, argsHandle_description,
      argsHandle_hints, allNames_argsHandle. simpl.
    rewrite !lookup_objSet_is_Some, IH1, IH2, IH3.
    rewrite elem_of_app, list_elem_of_singleton.
    clear IH1 IH2 IH3. split_and!; intuition congruence.
Qed.

Lemma default_parseCliArgs_last args :
  forall pre a post d,
    args = pre ++ a :: post ->
    canonicalName stripAnsi (flags a) <> protoKey ->
    defaultValue a = Some d ->
    (forall a', a' ∈ post ->
                canonicalName stripAnsi (flags a')
                = canonicalName stripAnsi (flags a) ->
                defaultValue a' = None) ->
    default ∅ (o_default (parseCliArgs stripAnsi args))
    !! canonicalName stripAnsi (flags a) = Some d.
Proof.
  intros pre a post d. revert args.
  induction post as [|z post IH] using rev_ind; intros args -> Hp Hd Hpost.
  - rewrite parseCliArgs_snoc, argsHandle_default, Hd. simpl.
    apply lookup_objSet_eq. exact Hp.
  - replace (pre ++ a :: post ++ [z]) with ((pre ++ a :: post) ++ [z])
      by (rewrite <- app_assoc; reflexivity).
    rewrite parseCliArgs_snoc, argsHandle_default.
    assert (default ∅ (o_default (parseCliArgs stripAnsi (pre ++ a :: post)))
            !! canonicalName stripAnsi (flags a) = Some d) as Hprev.
    { apply (IH (pre ++ a :: post) eq_refl Hp Hd).
      intros a' Ha'. apply Hpost. apply elem_of_app. left. exact Ha'. }
    destruct (defaultValue z) as [dz|] eqn:Ez; [|exact Hprev].
    simpl. rewrite lookup_objSet_ne; [exact Hprev|].
    intros E. assert (z ∈ post ++ [z]) as Hz by (apply elem_of_app; right; left).
    rewrite (Hpost z Hz (eq_sym E)) in Ez. discriminate Ez.
Qed.

End SchemaMore.

(** X14. Each bucket of the schema lists, in the order of the
    declarations and with repetitions, the canonical names of the
    entries of its type. *)
Theorem parseCliArgs_buckets_in_order (stripAnsi : str -> str) {D}
    (args : list (Arg D)) (type : OptionalType) :
  bucketNames type (parseCliArgs stripAnsi args)
  = map (fun a => canonicalName stripAnsi (flags a))
      (filter (fun a => canonicalType stripAnsi (flags a) = type) args).
Proof. apply bucketNames_parseCliArgs. Qed.

(** X15. The list [required] of the schema holds, in the order of the
    declarations, the canonical names of the entries marked with [!],
    and each of them is in a bucket. *)
Theorem parseCliArgs_required_in_order (stripAnsi : str -> str) {D}
    (args : list (Arg D)) :
  o_required (parseCliArgs stripAnsi args)
  = map (fun a => canonicalName stripAnsi (flags a))
      (filter (fun a => markedRequired stripAnsi (flags a) = true) args)
  /\ forall n, n ∈ o_required (parseCliArgs stripAnsi args) ->
               n ∈ allNames (parseCliArgs stripAnsi args).
Proof.
  split; [apply required_parseCliArgs|].
  intros n. rewrite required_parseCliArgs, names_parseCliArgs, list_elem_of_fmap.
  intros (a & -> & Ha). apply list_elem_of_filter in Ha as [_ Ha].
  exists a. split; [exact Ha|reflexivity].
Qed.

(** X16. In a compiled schema the names with an alias list, the names
    with a description and the names with a hint are the same: the
    names in the buckets, which are the canonical names of the
    entries, but for the name [__proto__], under which nothing is ever
    filed. *)
Theorem parseCliArgs_same_names_everywhere (stripAnsi : str -> str) {D}
    (args : list (Arg D)) (n : str) :
  let o := parseCliArgs stripAnsi args in
  (n ∈ allNames o
   <-> exists a, a ∈ args /\ canonicalName stripAnsi (flags a) = n)
  /\ (n <> u "__proto__" ->
      (is_Some (default ∅ (o_alias o) !! n) <-> n ∈ allNames o)
      /\ (is_Some (o_description o !! n) <-> n ∈ allNames o)
      /\ (is_Some (o_hints o !! n) <-> n ∈ allNames o))
  /\ (n = u "__proto__" ->
      default ∅ (o_alias o) !! n = None
      /\ o_description o !! n = None
      /\ o_hints o !! n = None).
Proof.
  intros o. split; [apply names_parseCliArgs|].
  destruct (parseCliArgs_domains stripAnsi D args n) as (H1 & H2 & H3).
  fold o in H1, H2, H3. split.
  - intros Hn. rewrite H1, H2, H3. repeat split; tauto.
  - intros Hn. repeat split.
    + destruct (default ∅ (o_alias o) !! n); [|reflexivity].
      exfalso. apply (proj2 (proj1 H1 (mk_is_Some _ _ eq_refl))). exact Hn.
    + destruct (o_description o !! n); [|reflexivity].
      exfalso. apply (proj2 (proj1 H2 (mk_is_Some _ _ eq_refl))). exact Hn.
    + destruct (o_hints o !! n); [|reflexivity].
      exfalso. apply (proj2 (proj1 H3 (mk_is_Some _ _ eq_refl))). exact Hn.
Qed.

(** X17. When a canonical name other than [__proto__] is declared more
    than once, the last declaration decides its aliases, its
    description and its hint; its default value is the one of the last
    declaration that gives one, also when a later declaration of the
    name gives none. *)
Theorem parseCliArgs_last_declaration_wins (stripAnsi : str -> str) {D}
    (pre post : list (Arg D)) (a : Arg D) :
  let o := parseCliArgs stripAnsi (pre ++ a :: post) in
  let canonical := canonicalName stripAnsi (flags a) in
  canonical <> u "__proto__" ->
  ((forall a', a' ∈ post -> canonicalName stripAnsi (flags a') <> canonical) ->
   default ∅ (o_alias o) !! canonical = Some (aliasNames stripAnsi (flags a))
   /\ o_description o !! canonical = Some (default [] (description a))
   /\ o_hints o !! canonical
      = Some (parseByChar (canonicalSegment stripAnsi (flags a)) defaultSymbols))
  /\ (forall d,
        defaultValue a = Some d ->
        (forall a', a' ∈ post ->
                    canonicalName stripAnsi (flags a') = canonical ->
                    defaultValue a' = None) ->
        default ∅ (o_default o) !! canonical = Some d).
Proof.
  intros o canonical Hp. split.
  - intros H.
    apply (parseCliArgs_last_wins stripAnsi D _ pre a post eq_refl Hp H).
  - intros d Hd H.
    apply (default_parseCliArgs_last stripAnsi D _ pre a post d eq_refl Hp Hd H).
Qed.

Lemma parseCliArgs_last_declaration_wins_witness :
  default ∅
    (o_default
       (parseCliArgs plainText
          ([] ++ mkArg (u "flag") (Some (u "first")) (Some true)
              :: [mkArg (u "!flag") (Some (u "second")) None])))
  !! u "flag" = Some true.
Proof.
  apply (fun Hp =>
           proj2 (parseCliArgs_last_declaration_wins plainText []
                    [mkArg (u "!flag") (Some (u "second")) None]
                    (mkArg (u "flag") (Some (u "first")) (Some true)) Hp)).
  - vm_compute. discriminate.
  - reflexivity.
  - intros a' Ha' _. apply list_elem_of_singleton in Ha'. subst a'. reflexivity.
Defined.

Lemma parseCliArgs_required_in_order_witness :
  u "pkg" ∈ allNames
    (parseCliArgs plainText
       [mkArg (u "p, pkg!") None (None : option bool); mkArg (u "files") None None]).
Proof.
  apply (proj2 (parseCliArgs_required_in_order plainText
                  [mkArg (u "p, pkg!") None (None : option bool);
                   mkArg (u "files") None None])).
  compute_done.
Defined.

(** ** Formatted entries *)

Section FormatArgsMore.

Variable stripAnsi : str -> str.
Variable D : Type.
Implicit Types (entry : list (JsVal D)) (args : list (list (JsVal D))).

Lemma formatArg_formattedFrom entry fa :
  formatArg stripAnsi entry = inr fa -> formattedFrom stripAnsi entry fa.
Proof.
  destruct entry as [|[s|d] rest]; try discriminate.
  unfold formatArg, Js.shift, Js.pop. intros H.
  destruct (splitFlag_last s) as [lastf E]. rewrite E in H.
  exists s, rest.
  unfold canonicalType, canonicalName, canonicalSegment.
  rewrite E. simpl default.
  destruct (parseType (stripAnsi lastf)) as [type val] eqn:P.
  injection H as <-. simpl. repeat split.
Qed.

Lemma mapThrow_Forall2 {A B E} (f : A -> E + B) (P : A -> B -> Prop)
    (l : list A) :
  (forall x y, f x = inr y -> P x y) ->
  forall r, mapThrow f l = inr r -> Forall2 P l r.
Proof.
  intros Hf. induction l as [|x l IH]; intros r H; simpl in H.
  - injection H as <-. constructor.
  - destruct (f x) as [e|y] eqn:Ex; [discriminate|].
    destruct (mapThrow f l) as [e|ys]; [discriminate|].
    injection H as <-. constructor; [apply Hf; exact Ex|apply IH; reflexivity].
Qed.

Lemma mapThrow_inl {A B E} (f : A -> E + B) (l : list A) (e : E) :
  mapThrow f l = inl e -> exists x, x ∈ l /\ f x = inl e.
Proof.
  induction l as [|x l IH]; simpl; [discriminate|].
  destruct (f x) as [e'|y] eqn:Ex.
  - intros [= <-]. exists x. split; [left|exact Ex].
  - destruct (mapThrow f l) as [e'|ys]; [|discriminate].
    intros [= <-]. destruct (IH eq_refl) as (x' & Hx' & Hf).
    exists x'. split; [right; exact Hx'|exact Hf].
Qed.

(** X18. When [formatArgs] succeeds, the formatted entries stand for
    the entries one by one and in order: each keeps the elements of its
    entry behind the flags as they were, joins the segments before the
    last one with commas, and has the type and, up to the mark [!] that
    it keeps, the name under which [parseCliArgs] registers the
    entry. *)
Theorem formatArgs_entry_by_entry args (r : list (FormatArgs D)) :
  formatArgs stripAnsi args = inr r -> Forall2 (formattedFrom stripAnsi) args r.
Proof.
  unfold formatArgs. apply mapThrow_Forall2. apply formatArg_formattedFrom.
Qed.

(** X19. [formatArgs] throws exactly when the first element of some
    entry is not a string (an empty entry has none), and what it throws
    is always the error with the message of the first [throw]; the
    message of the second one is never seen. *)
Theorem formatArgs_throws_one_error args :
  ((exists e, formatArgs stripAnsi args = inl e)
   <-> Exists (fun entry => flagsOf entry = None) args)
  /\ forall e,
       formatArgs stripAnsi args = inl e ->
       e = XWCMDErr (u "The args definition error.").
Proof.
  assert (forall e, formatArgs stripAnsi args = inl e ->
            e = XWCMDErr (u "The args definition error.")
            /\ Exists (fun entry => flagsOf entry = None) args) as H.
  { intros e He. apply mapThrow_inl in He as (entry & Hin & He).
    destruct (flagsOf entry) as [s|] eqn:E.
    - destruct (formatArg_string stripAnsi D entry s E) as [fa Hfa].
      rewrite Hfa in He. discriminate He.
    - rewrite formatArg_not_string in He by exact E. injection He as <-.
      split; [reflexivity|]. apply Exists_exists. exists entry.
      split; [exact Hin|exact E]. }
  split; [split|].
  - intros [e He]. apply (H e He).
  - intros Hex. eexists. apply mapThrow_error. exact Hex.
  - intros e He. apply (H e He).
Qed.

End FormatArgsMore.

Lemma formatArgs_entry_by_entry_witness :
  Forall2 (formattedFrom plainText)
    [[JString (u "m,me, !mean! <hint>"); JString (u "desc"); JOther true]]
    [mkFormatArgs bool (u "m,me") (u "mean!") (u "hint") boolean
       [JString (u "desc"); JOther true]].
Proof.
  apply (formatArgs_entry_by_entry plainText bool
           [[JString (u "m,me, !mean! <hint>"); JString (u "desc"); JOther true]]).
  vm_compute. reflexivity.
Defined.

Lemma formatArgs_throws_one_error_witness :
  exists e, formatArgs plainText [[JString (u "ok")]; [JOther 19%nat]] = inl e.
Proof.
  apply (proj1 (formatArgs_throws_one_error plainText nat
                  [[JString (u "ok")]; [JOther 19%nat]])).
  apply Exists_cons_tl, Exists_cons_hd. reflexivity.
Defined.

(** ** The default parameters *)

Lemma between_found (a b : N) (pre mid post : str) :
  a ∉ pre -> b ∉ post ->
  parseByChar (pre ++ a :: mid ++ b :: post) (a, b) = mid.
Proof.
  intros Ha Hb. unfold parseByChar, exec.
  change (reBetween (a, b))
    with (Cat (lit a) (Cat (Grp 1 (Star anyUnit)) (lit b))).
  rewrite search_lit_skip by exact Ha.
  change (Cat (lit a) (Cat (Grp 1 (Star anyUnit)) (lit b)))
    with (reBetween (a, b)).
  simpl search. rewrite matchAt_between by exact Hb. reflexivity.
Qed.

Lemma between_absent (a b : N) (val : str) :
  (forall pre mid post, val <> pre ++ a :: mid ++ b :: post) ->
  parseByChar val (a, b) = [].
Proof.
  intros H. unfold parseByChar, exec.
  rewrite search_none; [reflexivity|].
  intros l t b' ->. apply matchAt_between_none.
  intros mid post ->. apply (H l mid post). reflexivity.
Qed.

Lemma elem_of_rev {A} (l : list A) (x : A) : x ∈ rev l <-> x ∈ l.
Proof. rewrite !list_elem_of_In. symmetry. apply in_rev. Qed.

Lemma splitStrFrom_unit_pieces (c : N) (s : str) :
  forall cur piece,
    c ∉ cur -> piece ∈ Js.splitStrFrom [c] 0 cur s -> c ∉ piece.
Proof.
  induction s as [|x s IH]; intros cur piece Hcur; simpl.
  - intros H. apply list_elem_of_singleton in H. subst piece.
    rewrite elem_of_rev. exact Hcur.
  - destruct (N.eqb_spec c x) as [<-|Hne]; simpl.
    + intros H. apply elem_of_cons in H as [->|H].
      * rewrite elem_of_rev. exact Hcur.
      * apply (IH [] piece); [apply not_elem_of_nil|exact H].
    + apply IH. rewrite elem_of_cons. intros [E|E]; [congruence|contradiction].
Qed.

Lemma splitStrFrom_unit_length (c : N) (s : str) :
  forall cur,
    length (Js.splitStrFrom [c] 0 cur s)
    = S (length (filter (fun x => x = c) s)).
Proof.
  induction s as [|x s IH]; intros cur; simpl; [reflexivity|].
  rewrite filter_cons.
  destruct (N.eqb_spec c x) as [<-|Hne]; simpl.
  - rewrite decide_True by reflexivity. simpl. rewrite IH. reflexivity.
  - rewrite decide_False by congruence. apply IH.
Qed.

Lemma trimStart_elem (s : str) (x : N) : x ∈ Js.trimStart s -> x ∈ s.
Proof.
  induction s as [|y s IH]; simpl; [tauto|].
  destruct (Js.isWhiteSpace y); [|tauto]. intros H. right. apply IH. exact H.
Qed.

Lemma trim_elem (s : str) (x : N) : x ∈ Js.trim s -> x ∈ s.
Proof.
  unfold Js.trim, Js.trimEnd. rewrite elem_of_rev. intros H.
  apply trimStart_elem in H. rewrite elem_of_rev in H.
  apply trimStart_elem. exact H.
Qed.

Section DefaultParamsProps.

Variable stripAnsi : str -> str.
Variable D : Type.
Implicit Types (o : CmdOptions D) (pos : list str).

Lemma defaultParamStep_keeps st (param : str) :
  ch "," ∉ param -> positionalOnly st ->
  positionalOnly (defaultParamStep stripAnsi D st param).
Proof.
  destruct st as [o pos]. intros Hc (Hd & Ha & Hdesc & Hlen).
  unfold defaultParamStep, positionalOnly. cbn [fst snd] in *.
  assert (aliasNames stripAnsi (Js.trim param) = []) as Hal.
  { unfold aliasNames. rewrite splitFlag_no_comma; [reflexivity|].
    intros H. apply Hc. apply trim_elem. exact H. }
  rewrite argsHandle_default, argsHandle_alias, argsHandle_description.
  cbn [defaultValue description flags from_option id]. rewrite Hal.
  split; [exact Hd|]. split; [|split].
  - intros n l. unfold objSet. case_decide; [apply Ha|].
    rewrite lookup_insert. case_decide.
    + intros [= <-]. reflexivity.
    + apply Ha.
  - intros n d. unfold objSet. case_decide; [apply Hdesc|].
    rewrite lookup_insert. case_decide.
    + intros [= <-]. reflexivity.
    + apply Hdesc.
  - rewrite length_app, (Permutation_length (allNames_argsHandle _ _ _ _)).
    rewrite length_app, Hlen. reflexivity.
Qed.

Lemma fold_defaultParamStep_keeps (pieces : list str) :
  forall st,
    Forall (fun p => ch "," ∉ p) pieces -> positionalOnly st ->
    positionalOnly (fold_left (defaultParamStep stripAnsi D) pieces st).
Proof.
  induction pieces as [|p pieces IH]; intros st Hp Hst; [exact Hst|].
  inversion Hp; subst. simpl. apply IH; [assumption|].
  apply defaultParamStep_keeps; assumption.
Qed.

Lemma fold_defaultParamStep_length (pieces : list str) :
  forall st,
    length (snd (fold_left (defaultParamStep stripAnsi D) pieces st))
    = length (snd st) + length pieces.
Proof.
  induction pieces as [|p pieces IH]; intros [o pos]; simpl; [lia|].
  rewrite IH. simpl. rewrite length_app. simpl. lia.
Qed.

Lemma parseDefaultParams_params (defaultFlag : str) :
  parseDefaultParams stripAnsi D defaultFlag
  = let params := parseByChar defaultFlag (ch "[", ch "]") in
    if (0 <? length params)%nat
    then Some (fold_left (defaultParamStep stripAnsi D)
                 (Js.splitStr (u ",") params) (emptyOptions, []))
    else None.
Proof. reflexivity. Qed.

End DefaultParamsProps.

(** X20. [parseDefaultParams] reads the text between the first [[]
    and the last []] of its argument.  When that text is not empty it
    gives a result with one name in [_] for each piece between commas
    (one more than there are commas); when it is empty, or the
    brackets are not there, it gives [undefined]. *)
Theorem parseDefaultParams_between_brackets (stripAnsi : str -> str) (D : Type)
    (defaultFlag : str) :
  (forall pre mid post,
      defaultFlag = pre ++ ch "[" :: mid ++ ch "]" :: post ->
      ch "[" ∉ pre -> ch "]" ∉ post -> mid <> [] ->
      exists o positional,
        parseDefaultParams stripAnsi D defaultFlag = Some (o, positional)
        /\ length positional = S (length (filter (fun x => x = ch ",") mid)))
  /\ (forall pre post,
        defaultFlag = pre ++ u "[]" ++ post -> ch "[" ∉ pre -> ch "]" ∉ post ->
        parseDefaultParams stripAnsi D defaultFlag = None)
  /\ ((forall pre mid post,
          defaultFlag <> pre ++ ch "[" :: mid ++ ch "]" :: post) ->
      parseDefaultParams stripAnsi D defaultFlag = None).
Proof.
  rewrite parseDefaultParams_params. cbv zeta. split; [|split].
  - intros pre mid post -> Hl Hr Hne. rewrite between_found by assumption.
    destruct mid as [|x mid]; [contradiction|]. cbn [length Nat.ltb Nat.leb].
    destruct (fold_left (defaultParamStep stripAnsi D)
                (Js.splitStr (u ",") (x :: mid)) (emptyOptions, []))
      as [o positional] eqn:E.
    exists o, positional. split; [reflexivity|].
    change positional with (snd (o, positional)). rewrite <- E.
    rewrite fold_defaultParamStep_length. cbn [snd length Nat.add].
    apply (splitStrFrom_unit_length (ch ",") (x :: mid) []).
  - intros pre post -> Hl Hr.
    change (pre ++ u "[]" ++ post) with (pre ++ ch "[" :: [] ++ ch "]" :: post).
    rewrite between_found by assumption. reflexivity.
  - intros H. rewrite between_absent by exact H. reflexivity.
Qed.

Lemma parseDefaultParams_between_brackets_witness :
  exists o positional,
    parseDefaultParams plainText bool (u "i,in, install [pkg!, ...files]")
    = Some (o, positional)
    /\ length positional = 2.
Proof.
  apply (proj1 (parseDefaultParams_between_brackets plainText bool
                  (u "i,in, install [pkg!, ...files]"))
           (u "i,in, install ") (u "pkg!, ...files") []).
  - reflexivity.
  - compute_done.
  - compute_done.
  - discriminate.
Defined.

(** X21. What [parseDefaultParams] gives is positional only: no name
    has a default value, every name has an empty list of aliases and an
    empty description, and [_] holds as many names as the buckets. *)
Theorem parseDefaultParams_positional_only (stripAnsi : str -> str) (D : Type)
    (defaultFlag : str) (o : CmdOptions D) (positional : list str) :
  parseDefaultParams stripAnsi D defaultFlag = Some (o, positional) ->
  o_default o = None
  /\ (forall n l, default ∅ (o_alias o) !! n = Some l -> l = [])
  /\ (forall n d, o_description o !! n = Some d -> d = [])
  /\ length positional = length (allNames o).
Proof.
  rewrite parseDefaultParams_params. cbv zeta.
  destruct (0 <? length (parseByChar defaultFlag (ch "[", ch "]")))%nat;
    [|discriminate].
  intros [= H].
  change (positionalOnly (o, positional)). rewrite <- H.
  apply fold_defaultParamStep_keeps.
  - apply Forall_forall. intros piece Hpiece.
    apply (splitStrFrom_unit_pieces (ch ",")
             (parseByChar defaultFlag (ch "[", ch "]")) [] piece);
      [apply not_elem_of_nil|exact Hpiece].
  - unfold positionalOnly. simpl. repeat split.
    + intros n l. rewrite lookup_empty. discriminate.
    + intros n d. rewrite lookup_empty. discriminate.
Qed.

Lemma parseDefaultParams_positional_only_witness :
  length [u "pkg"; u "files"]
  = length
      (allNames
         (parseCliArgs plainText
            [mkArg (u "pkg!") (Some []) (None : option bool);
             mkArg (u "...files") (Some []) None])).
Proof.
  apply (parseDefaultParams_positional_only plainText bool
           (u "[pkg!, ...files]")).
  vm_compute. reflexivity.
Defined.

(** ** The command resolver, continued *)

Section TraverseMore.

Variable stripAnsi : str -> str.

Lemma pathIn_unfold (nm : str) (meta : Meta) (subs : list Command) :
  pathIn stripAnsi nm (mkCommand meta subs)
  = if matchSubCmd stripAnsi meta nm then Some [name meta]
    else option_map (cons (name meta)) (resolutionPath stripAnsi nm subs).
Proof.
  cbn [pathIn]. destruct (matchSubCmd stripAnsi meta nm); [reflexivity|].
  f_equal. induction subs as [|c subs IH]; [reflexivity|].
  cbn [resolutionPath]. destruct (pathIn stripAnsi nm c); [reflexivity|exact IH].
Qed.

Lemma upToMatch_last (nm : str) (l : list Meta) :
  anyMatch stripAnsi nm l = true ->
  exists m, last (upToMatch stripAnsi nm l) = Some m
            /\ m ∈ l /\ matchSubCmd stripAnsi m nm = true.
Proof.
  induction l as [|x l IH]; simpl; [discriminate|].
  destruct (matchSubCmd stripAnsi x nm) eqn:E; simpl.
  - intros _. exists x. split; [reflexivity|]. split; [left|exact E].
  - intros H. destruct (IH H) as (m & Hlast & Hin & Hm).
    exists m. split; [|split; [right; exact Hin|exact Hm]].
    rewrite last_cons, Hlast. reflexivity.
Qed.

Lemma resolutionPath_nonempty (nm : str) (l : list Command) :
  resolutionPath stripAnsi nm l <> Some [].
Proof.
  induction l as [|c l IHl]; simpl; [discriminate|].
  destruct (pathIn stripAnsi nm c) as [q|] eqn:Eq; [|exact IHl].
  destruct c as [meta subs]. rewrite pathIn_unfold in Eq.
  destruct (matchSubCmd stripAnsi meta nm); [congruence|].
  destruct (resolutionPath stripAnsi nm subs); simpl in Eq; congruence.
Qed.

Lemma pathIn_sublist (nm : str) (c : Command) :
  (pathIn stripAnsi nm c = None <-> anyMatch stripAnsi nm (nodesOf c) = false)
  /\ forall p,
       pathIn stripAnsi nm c = Some p ->
       sublist p (map name (upToMatch stripAnsi nm (nodesOf c)))
       /\ last p = last (map name (upToMatch stripAnsi nm (nodesOf c))).
Proof.
  induction c as [meta subs IH] using Command_forall_ind.
  rewrite pathIn_unfold, nodesOf_unfold. simpl.
  destruct (matchSubCmd stripAnsi meta nm) eqn:E; simpl.
  - split; [split; discriminate|]. intros p [= <-]. split; reflexivity.
  - assert ((resolutionPath stripAnsi nm subs = None
             <-> anyMatch stripAnsi nm (nodesOfList subs) = false)
            /\ forall p,
                 resolutionPath stripAnsi nm subs = Some p ->
                 sublist p (map name (upToMatch stripAnsi nm (nodesOfList subs)))
                 /\ last p
                    = last (map name (upToMatch stripAnsi nm (nodesOfList subs))))
      as [Hnone Hsome].
    { clear E. induction IH as [|c subs [Hc1 Hc2] _ [IH1 IH2]]; simpl.
      - split; [split; reflexivity|discriminate].
      - unfold anyMatch. rewrite existsb_app.
        fold (anyMatch stripAnsi nm (nodesOf c))
             (anyMatch stripAnsi nm (nodesOfList subs)).
        rewrite upToMatch_app.
        pose proof (resolutionPath_nonempty nm subs) as Hne.
        destruct (pathIn stripAnsi nm c) as [q|].
        + assert (anyMatch stripAnsi nm (nodesOf c) = true) as Hany.
          { destruct (anyMatch stripAnsi nm (nodesOf c)); [reflexivity|].
            destruct Hc1 as [_ Hc1]. discriminate (Hc1 eq_refl). }
          rewrite Hany. simpl. split; [split; discriminate|].
          intros p [= <-]. apply Hc2. reflexivity.
        + assert (anyMatch stripAnsi nm (nodesOf c) = false) as Hany
            by (apply Hc1; reflexivity).
          rewrite Hany. simpl. split; [exact IH1|].
          intros p Hp. destruct (IH2 p Hp) as [Hsub Hlast].
          rewrite map_app. split; [apply sublist_inserts_l; exact Hsub|].
          rewrite last_app, <- Hlast.
          destruct (last p) eqn:Elp; [reflexivity|].
          apply last_None in Elp. subst p. contradiction. }
    split.
    + rewrite <- Hnone.
      destruct (resolutionPath stripAnsi nm subs); simpl; split; congruence.
    + intros p Hp.
      pose proof (resolutionPath_nonempty nm subs) as Hne.
      destruct (resolutionPath stripAnsi nm subs) as [q|]; [|discriminate].
      injection Hp as <-. destruct (Hsome q eq_refl) as [Hsub Hlast].
      split; [apply sublist_skip; exact Hsub|].
      rewrite !last_cons, <- Hlast.
      destruct (last q) eqn:Elq; [reflexivity|].
      apply last_None in Elq. subst q. contradiction.
Qed.

Lemma resolutionPath_sublist (nm : str) (l : list Command) :
  (resolutionPath stripAnsi nm l = None
   <-> anyMatch stripAnsi nm (nodesOfList l) = false)
  /\ forall p,
       resolutionPath stripAnsi nm l = Some p ->
       sublist p (map name (upToMatch stripAnsi nm (nodesOfList l)))
       /\ last p = last (map name (upToMatch stripAnsi nm (nodesOfList l))).
Proof.
  induction l as [|c l [IH1 IH2]]; simpl.
  - split; [split; reflexivity|discriminate].
  - destruct (pathIn_sublist nm c) as [Hc1 Hc2].
    pose proof (resolutionPath_nonempty nm l) as Hne.
    unfold anyMatch. rewrite existsb_app.
    fold (anyMatch stripAnsi nm (nodesOf c))
         (anyMatch stripAnsi nm (nodesOfList l)).
    rewrite upToMatch_app.
    destruct (pathIn stripAnsi nm c) as [q|].
    + assert (anyMatch stripAnsi nm (nodesOf c) = true) as Hany.
      { destruct (anyMatch stripAnsi nm (nodesOf c)); [reflexivity|].
        destruct Hc1 as [_ Hc1]. discriminate (Hc1 eq_refl). }
      rewrite Hany. simpl. split; [split; discriminate|].
      intros p [= <-]. apply Hc2. reflexivity.
    + assert (anyMatch stripAnsi nm (nodesOf c) = false) as Hany
        by (apply Hc1; reflexivity).
      rewrite Hany. simpl. split; [exact IH1|].
      intros p Hp. destruct (IH2 p Hp) as [Hsub Hlast].
      rewrite map_app. split; [apply sublist_inserts_l; exact Hsub|].
      rewrite last_app, <- Hlast.
      destruct (last p) eqn:Elp; [reflexivity|].
      apply last_None in Elp. subst p. contradiction.
Qed.


(** X22. [traverseToCall] answers [false] exactly when no command of
    the forest, at any depth, has the token for name or alias once the
    colours are stripped. *)
Theorem traverseToCall_false_iff_no_match (nm : str) (subCmds : list Command) :
  traverseToCall stripAnsi nm subCmds = None
  <-> forall m, m ∈ nodesOfList subCmds ->
                forall n, n ∈ alias m ++ [name m] -> stripAnsi n <> nm.
Proof.
  rewrite traverseToCall_no_match. split; intros H m Hm.
  - intros n Hn E. specialize (H m Hm). unfold matchSubCmd in H.
    assert (existsb (fun n => bool_decide (stripAnsi n = nm))
              (alias m ++ [name m]) = true) as Ht; [|congruence].
    apply existsb_exists. exists n. split; [apply list_elem_of_In; exact Hn|].
    apply bool_decide_eq_true. exact E.
  - unfold matchSubCmd.
    destruct (existsb _ (alias m ++ [name m])) eqn:Ex; [|reflexivity].
    apply existsb_exists in Ex as (n & Hn & E).
    apply bool_decide_eq_true in E. apply list_elem_of_In in Hn.
    exfalso. exact (H m Hm n Hn E).
Qed.

(** X23. Called with an array [argv], [traverseToCall] never takes
    anything out of it: when a command matches, the result is [argv]
    followed by the names of the commands gone through, in the order
    of the declarations, and it ends with the name of a command that
    matches the token. *)
Theorem traverseToCall_extends_argv (nm : str) (subCmds : list Command)
    (argv result : list str) :
  traverseToCallFrom stripAnsi nm subCmds argv = Some result ->
  result = argv ++ map name (upToMatch stripAnsi nm (nodesOfList subCmds))
  /\ exists m,
       m ∈ nodesOfList subCmds
       /\ matchSubCmd stripAnsi m nm = true
       /\ last result = Some (name m).
Proof.
  unfold traverseToCallFrom. rewrite someVisit_preorder.
  destruct (anyMatch stripAnsi nm (nodesOfList subCmds)) eqn:E; [|discriminate].
  intros [= <-]. split; [reflexivity|].
  destruct (upToMatch_last nm _ E) as (m & Hlast & Hin & Hm).
  exists m. split; [exact Hin|]. split; [exact Hm|].
  rewrite last_app. change (map name ?l) with (name <$> l).
  rewrite fmap_last, Hlast. reflexivity.
Qed.

(** X24. The path to the first match is always inside what
    [traverseToCall] gives: the two answer [false] together, and
    otherwise the names of the path are among the names of the result,
    in the same order, and both end with the same name. *)
Theorem traverseToCall_contains_path (nm : str) (subCmds : list Command) :
  (resolutionPath stripAnsi nm subCmds = None
   <-> traverseToCall stripAnsi nm subCmds = None)
  /\ forall p,
       resolutionPath stripAnsi nm subCmds = Some p ->
       exists result,
         traverseToCall stripAnsi nm subCmds = Some result
         /\ sublist p result /\ last p = last result.
Proof.
  destruct (resolutionPath_sublist nm subCmds) as [Hnone Hsome].
  rewrite traverseToCall_preorder. split.
  - rewrite Hnone.
    destruct (anyMatch stripAnsi nm (nodesOfList subCmds)); split; congruence.
  - intros p Hp. destruct (Hsome p Hp) as [Hsub Hlast].
    destruct (anyMatch stripAnsi nm (nodesOfList subCmds)) eqn:E.
    + eexists. split; [reflexivity|]. split; assumption.
    + destruct Hnone as [_ Hnone]. rewrite (Hnone eq_refl) in Hp.
      discriminate Hp.
Qed.

End TraverseMore.

Lemma traverseToCall_extends_argv_witness :
  [u "install"; u "add"]
  = [] ++ map name (upToMatch plainText (u "add") (nodesOfList [install; add])).
Proof.
  apply (traverseToCall_extends_argv plainText (u "add") [install; add] []
           [u "install"; u "add"]).
  reflexivity.
Defined.

Lemma traverseToCall_contains_path_witness :
  exists result,
    traverseToCall plainText (u "add") [install; add] = Some result
    /\ sublist [u "add"] result /\ last [u "add"] = last result.
Proof.
  apply (proj2 (traverseToCall_contains_path plainText (u "add") [install; add])).
  reflexivity.
Defined.

(** ** Kebab case *)

Lemma upper_not_lower (c : N) : isUpperLetter c = true -> isLowerLetter c = false.
Proof.
  unfold isUpperLetter, isLowerLetter. intros H.
  apply andb_prop in H as [_ H]. apply N.leb_le in H.
  destruct (97 <=? c)%N eqn:E; [|reflexivity].
  apply N.leb_le in E. lia.
Qed.

Lemma matchAt_reLowerUpper (b : bool) (s : str) :
  matchAt reLowerUpper b s
  = match s with
    | x :: y :: t =>
        if isLowerLetter x && isUpperLetter y
        then Some (t, [(2, [y]); (1, [x])])
        else None
    | _ => None
    end.
Proof.
  unfold matchAt, reLowerUpper. cbn [run].
  destruct s as [|x [|y t]]; [reflexivity| |].
  - destruct (isLowerLetter x); reflexivity.
  - destruct (isLowerLetter x); [|reflexivity].
    destruct (isUpperLetter y); [|reflexivity]. cbn [andb length].
    replace (S (S (length t)) - S (length t)) with 1 by lia.
    replace (S (length t) - length t) with 1 by lia. reflexivity.
Qed.

Lemma replaceAllGroupsFrom_cons (r : re) (f : str -> captures -> str)
    (b : bool) (x : N) (t : str) :
  replaceAllGroupsFrom r f b 0 (x :: t)
  = match matchAt r b (x :: t) with
    | Some (s', c) =>
        match length (firstn (length (x :: t) - length s') (x :: t)) with
        | O =>
            f (firstn (length (x :: t) - length s') (x :: t)) c
            ++ x :: replaceAllGroupsFrom r f false 0 t
        | S n =>
            f (firstn (length (x :: t) - length s') (x :: t)) c
            ++ replaceAllGroupsFrom r f false n t
        end
    | None => x :: replaceAllGroupsFrom r f false 0 t
    end.
Proof. reflexivity. Qed.

Lemma insertHyphens_cons (x y : N) (t : str) :
  insertHyphens (x :: y :: t)
  = if isLowerLetter x && isUpperLetter y
    then x :: ch "-" :: insertHyphens (y :: t)
    else x :: insertHyphens (y :: t).
Proof. reflexivity. Qed.

Lemma insertHyphens_upper (y : N) (t : str) :
  isUpperLetter y = true -> insertHyphens (y :: t) = y :: insertHyphens t.
Proof.
  intros Hy. apply upper_not_lower in Hy.
  destruct t as [|z t]; [reflexivity|]. rewrite insertHyphens_cons, Hy.
  reflexivity.
Qed.

Lemma replaceAllGroups_insertHyphens (n : nat) :
  forall s b,
    length s <= n ->
    replaceAllGroupsFrom reLowerUpper hyphenBetween b 0 s = insertHyphens s.
Proof.
  induction n as [|n IH]; intros s b Hn.
  - destruct s; [reflexivity|simpl in Hn; lia].
  - destruct s as [|x [|y t]]; [reflexivity| |].
    { rewrite replaceAllGroupsFrom_cons, matchAt_reLowerUpper. reflexivity. }
    rewrite replaceAllGroupsFrom_cons, matchAt_reLowerUpper, insertHyphens_cons.
    cbn [length] in Hn.
    destruct (isLowerLetter x && isUpperLetter y) eqn:E.
    + replace (length (x :: y :: t) - length t) with 2 by (simpl; lia).
      cbn [firstn length]. rewrite take_0. cbn [length].
      unfold hyphenBetween at 1. cbn [capture Nat.eqb].
      cbn [from_option id]. change (u "-") with [ch "-"].
      change (replaceAllGroupsFrom reLowerUpper hyphenBetween false 1 (y :: t))
        with (replaceAllGroupsFrom reLowerUpper hyphenBetween false 0 t).
      rewrite IH by lia.
      apply andb_prop in E as [_ Ey]. rewrite (insertHyphens_upper y t Ey).
      reflexivity.
    + rewrite IH by (cbn [length]; lia). reflexivity.
Qed.

Lemma insertHyphens_length (s : str) :
  length (insertHyphens s) = length s + humps s.
Proof.
  induction s as [|x t IH]; [reflexivity|].
  destruct t as [|y t]; [reflexivity|].
  rewrite insertHyphens_cons. change (humps (x :: y :: t))
    with (if isLowerLetter x && isUpperLetter y
          then S (humps (y :: t)) else humps (y :: t)).
  destruct (isLowerLetter x && isUpperLetter y); cbn [length] in *;
    rewrite IH; lia.
Qed.

Lemma insertHyphens_flat (s : str) : humps s = 0 -> insertHyphens s = s.
Proof.
  induction s as [|x t IH]; [reflexivity|].
  destruct t as [|y t]; [reflexivity|].
  rewrite insertHyphens_cons. change (humps (x :: y :: t))
    with (if isLowerLetter x && isUpperLetter y
          then S (humps (y :: t)) else humps (y :: t)).
  destruct (isLowerLetter x && isUpperLetter y); [discriminate|].
  intros H. rewrite IH by exact H. reflexivity.
Qed.

(** X25. [toKebabCase] puts one hyphen between every letter of [a-z]
    and the letter of [A-Z] right behind it, and lowers the case of
    the result; nothing else is added, so a string without such a pair
    is only put in lower case. *)
Theorem toKebabCase_hyphens (toLowerCase : str -> str) (s : str) :
  toKebabCase toLowerCase s = toLowerCase (insertHyphens s)
  /\ length (insertHyphens s) = length s + humps s
  /\ (humps s = 0 -> toKebabCase toLowerCase s = toLowerCase s).
Proof.
  assert (toKebabCase toLowerCase s = toLowerCase (insertHyphens s)) as E.
  { unfold toKebabCase, replaceAllGroups.
    rewrite (replaceAllGroups_insertHyphens (length s)) by lia. reflexivity. }
  split; [exact E|]. split; [apply insertHyphens_length|].
  intros H. rewrite E, insertHyphens_flat by exact H. reflexivity.
Qed.

Lemma toKebabCase_hyphens_witness :
  toKebabCase plainText (u "dry-run") = plainText (u "dry-run").
Proof.
  apply (proj2 (proj2 (toKebabCase_hyphens plainText (u "dry-run")))).
  reflexivity.
Defined.

(** ** Instances of the equivalences *)

Lemma flag_recognizers_by_prefix_witness : isLongFlag (u "--help") = true.
Proof.
  apply (proj2 (proj1 (proj2 (flag_recognizers_by_prefix (u "--help"))))).
  exists (u "help"). reflexivity.
Defined.

Lemma isLink_scheme_at_start_witness : isLink (u "https://x.io") = true.
Proof.
  apply (proj2 (isLink_scheme_at_start (u "https://x.io"))).
  exists (u "x.io"). right. left. reflexivity.
Defined.

Lemma parseCliArgs_same_names_everywhere_witness :
  is_Some
    (o_description
       (parseCliArgs plainText
          [mkArg (u "p, pkg!") None (None : option bool)]) !! u "pkg")
  /\ o_description
       (parseCliArgs plainText
          [mkArg (u "__proto__") None (None : option bool)]) !! u "__proto__"
     = None.
Proof.
  split.
  - apply (fun Hn => proj2 (proj1 (proj2 (proj1 (proj2
             (parseCliArgs_same_names_everywhere plainText
                [mkArg (u "p, pkg!") None (None : option bool)] (u "pkg")))
             Hn)))).
    + discriminate.
    + apply (proj2 (proj1
               (parseCliArgs_same_names_everywhere plainText
                  [mkArg (u "p, pkg!") None (None : option bool)] (u "pkg")))).
      eexists. split; [left|reflexivity].
  - apply (fun Hn => proj1 (proj2 (proj2 (proj2
             (parseCliArgs_same_names_everywhere plainText
                [mkArg (u "__proto__") None (None : option bool)]
                (u "__proto__"))) Hn))).
    reflexivity.
Defined.

Lemma traverseToCall_false_iff_no_match_witness :
  traverseToCall plainText (u "update") [install; add] = None.
Proof.
  apply (proj2 (traverseToCall_false_iff_no_match plainText (u "update")
                  [install; add])).
  intros m Hm n Hn. unfold install, add in Hm. cbn in Hm.
  apply elem_of_cons in Hm as [->|Hm];
    [|apply list_elem_of_singleton in Hm; subst m];
    cbn in Hn;
    repeat (apply elem_of_cons in Hn as [->|Hn]; [discriminate|]);
    inversion Hn.
Defined.
